(** * Oat: shared-memory Source facade, component entry points, HSV blob
      sifting and the recorder's end-of-stream latch

    A shallow embedding of
    - [experiments/src/Source.h]        (module [Shmem]),
    - [src/frameserver/main.cpp] and
      [src/positionfilter/main.cpp]     (module [Cli]),
    - [src/positiondetector/HSVDetector.cpp] (module [HSV]),
    - [src/recorder/Recorder.cpp]       (module [Rec]).

    Shared memory is modelled as an explicit store: the host keeps a table
    of segment names and a table of mapped segments, a segment keeps its
    named objects, and a [Source] holds references into a segment.  A name
    can be unlinked while the segment it named stays mapped, as on POSIX. *)

From stdpp Require Import gmap strings list fin_maps.
From Stdlib Require Import ZArith Lia Ascii.

Open Scope Z_scope.

Module Shmem.

(** ** Node (control block) *)

(** Modelled from the spec: [Node.h] is not among the sources.  The sink
    lifecycle has the three states the spec lists. *)
Inductive SinkState : Type := UNDEFINED | BOUND | END.

#[global] Instance SinkState_eq_dec : EqDecision SinkState.
Proof. solve_decision. Defined.

(** Modelled from the spec: the fixed number of consumer slots of a Node
    ("at most 10 is sufficient for this system"). *)
Definition MAX_CONSUMERS : Z := 10.

(** [size_t] arithmetic: 64-bit, wrapping. *)
Definition SIZE_BITS : Z := 64.
Definition wrap (z : Z) : Z := z mod 2 ^ SIZE_BITS.

(** Modelled from the spec: the fields of the Node that Source.h reads and
    writes.  A semaphore is its token count. *)
Record Node : Type := mkNode {
  sink_state : SinkState;
  source_ref_count : Z;
  source_read_count : Z;
  write_number : Z;
  write_barrier : nat;
  read_barriers : list nat
}.

(** A default-constructed Node: no sink, no consumers, no tokens. *)
Definition Node_new : Node :=
  {| sink_state := UNDEFINED;
     source_ref_count := 0;
     source_read_count := 0;
     write_number := 0;
     write_barrier := 0;
     read_barriers := replicate (Z.to_nat MAX_CONSUMERS) 0%nat |}.

Definition set_source_ref_count (c : Z) (n : Node) : Node :=
  {| sink_state := sink_state n;
     source_ref_count := c;
     source_read_count := source_read_count n;
     write_number := write_number n;
     write_barrier := write_barrier n;
     read_barriers := read_barriers n |}.

Definition set_source_read_count (c : Z) (n : Node) : Node :=
  {| sink_state := sink_state n;
     source_ref_count := source_ref_count n;
     source_read_count := c;
     write_number := write_number n;
     write_barrier := write_barrier n;
     read_barriers := read_barriers n |}.

Definition set_write_barrier (k : nat) (n : Node) : Node :=
  {| sink_state := sink_state n;
     source_ref_count := source_ref_count n;
     source_read_count := source_read_count n;
     write_number := write_number n;
     write_barrier := k;
     read_barriers := read_barriers n |}.

Definition set_read_barriers (l : list nat) (n : Node) : Node :=
  {| sink_state := sink_state n;
     source_ref_count := source_ref_count n;
     source_read_count := source_read_count n;
     write_number := write_number n;
     write_barrier := write_barrier n;
     read_barriers := l |}.

Definition set_sink_state (s : SinkState) (n : Node) : Node :=
  {| sink_state := s;
     source_ref_count := source_ref_count n;
     source_read_count := source_read_count n;
     write_number := write_number n;
     write_barrier := write_barrier n;
     read_barriers := read_barriers n |}.

(** Exceptions: [std::runtime_error] carries its message;
    [too_many_consumers] is the Node's attach failure of the spec;
    [segment_not_found] is what a strict open of an unlinked name raises. *)
Inductive Exn : Type :=
| runtime_error (what : string)
| too_many_consumers
| segment_not_found.

(** Modelled from the spec: [increment_source_ref_count() -> slot_index]
    picks the lowest free index, increments the count and returns the index;
    it fails with too-many-consumers if the count would exceed
    [MAX_CONSUMERS].  With slots [0, count) taken, the lowest free index is
    the old count. *)
Definition incrementSourceRefCount (n : Node) : Exn + Node * Z :=
  let c := source_ref_count n in
  if MAX_CONSUMERS <=? c then inl too_many_consumers
  else inr (set_source_ref_count (wrap (c + 1)) n, c).

(** Modelled from the spec: [decrement_source_ref_count() -> new_count]
    returns the post-decrement value. *)
Definition decrementSourceRefCount (n : Node) : Node * Z :=
  let c := wrap (source_ref_count n - 1) in
  (set_source_ref_count c n, c).

(** Modelled from the spec: [increment_source_read_count() -> new_count]. *)
Definition incrementSourceReadCount (n : Node) : Node * Z :=
  let c := wrap (source_read_count n + 1) in
  (set_source_read_count c n, c).

(** Semaphore operations (boost interprocess_semaphore): [post] adds a
    token; [timed_wait] takes one if there is one before the deadline and
    reports whether it did. *)
Definition sem_post (k : nat) : nat := S k.

Definition sem_timed_wait (k : nat) : nat * bool :=
  match k with
  | O => (O, false)
  | S k' => (k', true)
  end.

(** [node_->readBarrier(i).timed_wait(timeout)]: a slot outside the array
    holds no token to take. *)
Definition readBarrier_timed_wait (i : Z) (n : Node) : Node * bool :=
  match read_barriers n !! Z.to_nat i with
  | Some k =>
      match sem_timed_wait k with
      | (k', true) =>
          (set_read_barriers (<[Z.to_nat i := k']> (read_barriers n)) n, true)
      | (_, false) => (n, false)
      end
  | None => (n, false)
  end.

(** ** Payload slot, segments and the host *)

(** The frame payload header kept in the segment ([SharedCVMat]): size,
    pixel type and the segment-relative handle of the pixel buffer. *)
Record SharedCVMat : Type := mkMat {
  mat_rows : Z;
  mat_cols : Z;
  mat_type : Z;
  mat_data : Z
}.

Definition SharedCVMat_new : SharedCVMat :=
  {| mat_rows := 0; mat_cols := 0; mat_type := 0; mat_data := 0 |}.

(** A managed segment: the payload bytes asked for at creation (its size is
    that plus the fixed sizes of the Node and of the payload header) and its
    named objects. *)
Record Segment : Type := mkSegment {
  seg_bytes : Z;
  seg_nodes : gmap string Node;
  seg_objects : gmap string SharedCVMat
}.

Definition Segment_new (bytes : Z) : Segment :=
  {| seg_bytes := bytes; seg_nodes := ∅; seg_objects := ∅ |}.

(** The host: which names are linked to which segment, and the segments
    that exist (linked or still mapped by someone). *)
Record Host : Type := mkHost {
  names : gmap string nat;
  segments : gmap nat Segment
}.

Definition Host_empty : Host := {| names := ∅; segments := ∅ |}.

(** A pointer into a segment: the segment and the name of the object. *)
Record Ptr : Type := mkPtr { ptr_seg : nat; ptr_name : string }.

Definition get_node (h : Host) (p : Ptr) : option Node :=
  match segments h !! ptr_seg p with
  | Some sg => seg_nodes sg !! ptr_name p
  | None => None
  end.

Definition get_object (h : Host) (p : Ptr) : option SharedCVMat :=
  match segments h !! ptr_seg p with
  | Some sg => seg_objects sg !! ptr_name p
  | None => None
  end.

Definition seg_set_node (name : string) (n : Node) (sg : Segment) : Segment :=
  {| seg_bytes := seg_bytes sg;
     seg_nodes := <[name := n]> (seg_nodes sg);
     seg_objects := seg_objects sg |}.

Definition seg_set_object (name : string) (o : SharedCVMat) (sg : Segment)
  : Segment :=
  {| seg_bytes := seg_bytes sg;
     seg_nodes := seg_nodes sg;
     seg_objects := <[name := o]> (seg_objects sg) |}.

Definition set_node (p : Ptr) (n : Node) (h : Host) : Host :=
  {| names := names h;
     segments := alter (seg_set_node (ptr_name p) n) (ptr_seg p) (segments h) |}.

(** [bip::shared_memory_object::remove(name)]: the name goes away, the
    segment stays with whoever has it mapped. *)
Definition shm_remove (name : string) (h : Host) : Host :=
  {| names := delete name (names h); segments := segments h |}.

(** [managed_shared_memory(open_or_create, name, size)]. *)
Definition open_or_create (name : string) (bytes : Z) (h : Host) : Host * nat :=
  match names h !! name with
  | Some id => (h, id)
  | None =>
      let id := fresh (dom (segments h)) in
      ({| names := <[name := id]> (names h);
          segments := <[id := Segment_new bytes]> (segments h) |}, id)
  end.

(** [managed_shared_memory(open_only, name)]. *)
Definition open_only (name : string) (h : Host) : Exn + nat :=
  match names h !! name with
  | Some id => inr id
  | None => inl segment_not_found
  end.

(** [shmem.find_or_construct<Node>(name)()]. *)
Definition find_or_construct_node (id : nat) (name : string) (h : Host) : Host :=
  {| names := names h;
     segments :=
       alter (fun sg =>
                match seg_nodes sg !! name with
                | Some _ => sg
                | None => seg_set_node name Node_new sg
                end) id (segments h) |}.

(** [shmem.find_or_construct<T>(name)()]. *)
Definition find_or_construct_object (id : nat) (name : string) (h : Host)
  : Host :=
  {| names := names h;
     segments :=
       alter (fun sg =>
                match seg_objects sg !! name with
                | Some _ => sg
                | None => seg_set_object name SharedCVMat_new sg
                end) id (segments h) |}.

(** ** The Source facade (Source.h) *)

Record Source : Type := mkSource {
  object_ : option Ptr;
  node_ : option Ptr;
  address_ : string;
  shmem_bound_ : bool;
  this_index_ : Z
}.

(** [SourceBase<T>::SourceBase()]: nothing is set; [shmem_bound_] has its
    in-class initialiser [false]. *)
Definition Source_new : Source :=
  {| object_ := None; node_ := None; address_ := "";
     shmem_bound_ := false; this_index_ := 0 |}.

(** How a call ends: it returns, it throws, it is still blocked when the
    modelled interference is used up, or it dereferences a pointer that
    refers to no object. *)
Inductive outcome (A : Type) : Type :=
| Ok (a : A)
| Throw (e : Exn)
| Blocked
| Undefined.
Arguments Ok {A} a.
Arguments Throw {A} e.
Arguments Blocked {A}.
Arguments Undefined {A}.

(** [*node_]. *)
Definition deref_node (h : Host) (s : Source) : option (Ptr * Node) :=
  match node_ s with
  | Some p =>
      match get_node h p with
      | Some n => Some (p, n)
      | None => None
      end
  | None => None
  end.

(** The body of [post()] on the Node it points to. *)
Definition post_node (n : Node) : Node :=
  let '(n1, c) := incrementSourceReadCount n in
  if c =? source_ref_count n1
  then set_write_barrier (sem_post (write_barrier n1)) n1
  else n1.

(** [SourceBase<T>::post()]. *)
Definition post (s : Source) (h : Host) : Host * outcome unit :=
  match deref_node h s with
  | Some (p, n) => (set_node p (post_node n) h, Ok tt)
  | None => (h, Undefined)
  end.

(** What the other processes do to the host during one 10 ms timeout. *)
Definition Interference : Type := list (Host -> Host).

(** [SourceBase<T>::wait()]: retry the timed wait until it takes a token.
    Each failed attempt lets one step of interference happen. *)
Fixpoint wait_loop (env : Interference) (p : Ptr) (i : Z) (h : Host)
  : Host * outcome unit :=
  match get_node h p with
  | None => (h, Undefined)
  | Some n =>
      match readBarrier_timed_wait i n with
      | (n', true) => (set_node p n' h, Ok tt)
      | (_, false) =>
          match env with
          | [] => (h, Blocked)
          | e :: env' => wait_loop env' p i (e h)
          end
      end
  end.

Definition wait (env : Interference) (s : Source) (h : Host)
  : Host * outcome unit :=
  match node_ s with
  | Some p => wait_loop env p (this_index_ s) h
  | None => (h, Undefined)
  end.

(** [SourceBase<T>::connect()]. *)
Definition connect (env : Interference) (s : Source) (h : Host)
  : Host * outcome unit :=
  match deref_node h s with
  | Some (_, n) =>
      if decide (sink_state n ≠ BOUND) then wait env s h else (h, Ok tt)
  | None => (h, Undefined)
  end.

(** A local address: the mapping of a segment plus an offset. *)
Record Addr : Type := mkAddr { addr_seg : nat; addr_off : Z }.

Definition get_address_from_handle (id : nat) (handle : Z) : Addr :=
  {| addr_seg := id; addr_off := handle |}.

Definition read_error : string :=
  "Source tried to read from node without bound sink".

(** [SourceBase<T>::read()]. *)
Definition read (s : Source) (h : Host) : outcome Addr :=
  match deref_node h s with
  | Some (_, n) =>
      if decide (sink_state n ≠ BOUND) then Throw (runtime_error read_error)
      else
        match open_only (address_ s) h with
        | inl e => Throw e
        | inr id =>
            match object_ s with
            | Some q =>
                match get_object h q with
                | Some o => Ok (get_address_from_handle id (mat_data o))
                | None => Undefined
                end
            | None => Undefined
            end
        end
  | None => Undefined
  end.

(** The local view a frame Source builds in [connect()]. *)
Record Mat : Type := mkView {
  view_rows : Z;
  view_cols : Z;
  view_type : Z;
  view_data : Addr
}.

(** [cv::Mat(object_->size(), object_->type(), read())]. *)
Definition materialize (s : Source) (h : Host) : outcome Mat :=
  match object_ s with
  | Some q =>
      match get_object h q with
      | Some o =>
          match read s h with
          | Ok a =>
              Ok {| view_rows := mat_rows o; view_cols := mat_cols o;
                    view_type := mat_type o; view_data := a |}
          | Throw e => Throw e
          | Blocked => Blocked
          | Undefined => Undefined
          end
      | None => Undefined
      end
  | None => Undefined
  end.

(** [Source<SharedCVMat>::connect()]. *)
Definition connect_mat (env : Interference) (s : Source) (h : Host)
  : Host * outcome Mat :=
  match deref_node h s with
  | Some (_, n) =>
      if decide (sink_state n ≠ BOUND) then
        match wait env s h with
        | (h1, Ok _) => (h1, materialize s h1)
        | (h1, Throw e) => (h1, Throw e)
        | (h1, Blocked) => (h1, Blocked)
        | (h1, Undefined) => (h1, Undefined)
        end
      else (h, materialize s h)
  | None => (h, Undefined)
  end.

(** [SourceBase<T>::~SourceBase()]. *)
Definition destroy (s : Source) (h : Host) : Host * outcome unit :=
  if shmem_bound_ s then
    match deref_node h s with
    | Some (p, n) =>
        let '(n1, c) := decrementSourceRefCount n in
        let h1 := set_node p n1 h in
        if (c =? 0) && bool_decide (sink_state n1 ≠ BOUND) then
          let '(h2, _) := post s h1 in
          (shm_remove (address_ s) h2, Ok tt)
        else (h1, Ok tt)
    | None => (h, Undefined)
    end
  else (h, Ok tt).

Definition node_suffix : string := "/shmgr".
Definition object_suffix : string := "/shobj".

(** [SourceBase<T>::bind(address, bytes)].  The Source is returned as the
    call left it, also when the call throws.  The embedding follows the
    shared state: [node_] and [object_] are kept as references to the named
    objects of the segment; that the [managed_shared_memory] of the source
    is a local of [bind], whose mapping ends with the call, is not
    modelled. *)
Definition bind (s : Source) (address : string) (bytes : Z) (h : Host)
  : Host * Source * outcome unit :=
  let node_address := address +:+ node_suffix in
  let obj_address := address +:+ object_suffix in
  let '(h1, id) := open_or_create address bytes h in
  let h2 := find_or_construct_node id node_address h1 in
  let p := {| ptr_seg := id; ptr_name := node_address |} in
  let h3 := find_or_construct_object id obj_address h2 in
  let q := {| ptr_seg := id; ptr_name := obj_address |} in
  let s1 := {| object_ := Some q; node_ := Some p; address_ := address;
               shmem_bound_ := shmem_bound_ s;
               this_index_ := this_index_ s |} in
  match get_node h3 p with
  | Some n =>
      match incrementSourceRefCount n with
      | inr (n', idx) =>
          (set_node p n' h3,
           {| object_ := Some q; node_ := Some p; address_ := address;
              shmem_bound_ := true; this_index_ := idx |},
           Ok tt)
      | inl e => (h3, s1, Throw e)
      end
  | None => (h3, s1, Undefined)
  end.

(** ** Vocabulary of the properties *)

(** A linked name refers to a segment that exists. *)
Definition host_wf (h : Host) : Prop :=
  ∀ name id, names h !! name = Some id → is_Some (segments h !! id).

(** Slot [i] of the Node at [p] has no token. *)
Definition no_token (p : Ptr) (i : Z) (h : Host) : Prop :=
  ∃ n, get_node h p = Some n ∧ read_barriers n !! Z.to_nat i = Some 0%nat.

(** A step of interference that posts nothing to slot [i]; it may do
    anything else, such as setting [sink_state] to [END]. *)
Definition leaves_barrier_empty (p : Ptr) (i : Z) (e : Host → Host) : Prop :=
  ∀ h, no_token p i h → no_token p i (e h).

(** The Node of the stream at [address], if the name is linked and the Node
    has been constructed. *)
Definition node_at (h : Host) (address : string) : option Node :=
  match names h !! address with
  | Some id =>
      get_node h {| ptr_seg := id; ptr_name := address +:+ node_suffix |}
  | None => None
  end.

(** The payload slot of the stream at [address], likewise. *)
Definition object_at (h : Host) (address : string) : option SharedCVMat :=
  match names h !! address with
  | Some id =>
      get_object h {| ptr_seg := id; ptr_name := address +:+ object_suffix |}
  | None => None
  end.

(** The consumers attached to [address] so far. *)
Definition consumers_at (h : Host) (address : string) : Z :=
  match node_at h address with
  | Some n => source_ref_count n
  | None => 0
  end.

(** The host after the steps of interference [env], in order. *)
Definition after_interference (env : Interference) (h : Host) : Host :=
  foldl (λ h e, e h) h env.

(** The consumers in [sources] call [post()] one after the other. *)
Definition post_all (sources : list Source) (h : Host) : Host :=
  foldl (λ h s, fst (post s h)) h sources.

(** ** Example hosts *)

(** One consumer attached to ["raw"], no sink yet. *)
Definition attached_raw : Host * Source :=
  fst (bind Source_new "raw" 0 Host_empty).

(** [set_sink_state] done by the sink's process on the Node at [p]. *)
Definition sink_sets (st : SinkState) (p : Ptr) (h : Host) : Host :=
  match get_node h p with
  | Some n => set_node p (set_sink_state st n) h
  | None => h
  end.

Definition raw_node_ptr : Ptr := {| ptr_seg := 0; ptr_name := "raw/shmgr" |}.

(** The same consumer after the sink has come and gone: [sink_state = END],
    no read-barrier token left. *)
Definition ended_raw : Host * Source :=
  (sink_sets END raw_node_ptr (fst attached_raw), snd attached_raw).

(** The same consumer with a bound sink, after another process has unlinked
    the name (the segment is still mapped). *)
Definition unlinked_raw : Host * Source :=
  (shm_remove "raw" (sink_sets BOUND raw_node_ptr (fst attached_raw)),
   snd attached_raw).

(** Attach [k] more consumers to ["raw"]. *)
Fixpoint attach_more (k : nat) (h : Host) : Host :=
  match k with
  | O => h
  | S k' => attach_more k' (fst (fst (bind Source_new "raw" 0 h)))
  end.

(** A Node with every slot taken, and the Source whose [bind] on it threw. *)
Definition full_raw : Host * Source :=
  fst (bind Source_new "raw" 0 (attach_more 10 Host_empty)).

(** The sink's [post()] on slot [i] of the Node at [p], seen from the
    consumer: one more token on that read barrier. *)
Definition token_arrives (p : Ptr) (i : nat) (h : Host) : Host :=
  match get_node h p with
  | Some n => set_node p (set_read_barriers (alter S i (read_barriers n)) n) h
  | None => h
  end.

(** Two consumers attached to ["raw"], no sink yet. *)
Definition two_attached_raw : Host * list Source :=
  let '(h1, s1, _) := bind Source_new "raw" 0 Host_empty in
  let '(h2, s2, _) := bind Source_new "raw" 0 h1 in
  (h2, [s1; s2]).

(** The same consumer with a bound sink and the name still linked. *)
Definition bound_raw : Host * Source :=
  (sink_sets BOUND raw_node_ptr (fst attached_raw), snd attached_raw).

End Shmem.

(** * Component entry points (frameserver/main.cpp, positionfilter/main.cpp) *)

Module Cli.

(** The exceptions the two [main] functions tell apart by their handlers.
    All but [non_std] derive from [std::exception]. *)
Inductive exn : Type :=
| po_error
| toml_parse_exception
| std_runtime_error
| cv_Exception
| interprocess_exception (error_code : Z)
| non_std.

#[global] Instance exn_eq_dec : EqDecision exn.
Proof. solve_decision. Defined.

Definition is_std_exception (e : exn) : bool :=
  match e with
  | non_std => false
  | _ => true
  end.

(** How the process ends: [main] returns a code, or an exception leaves
    [main] and the runtime calls [std::terminate]. *)
Inductive exit : Type :=
| Return (code : Z)
| Terminate (e : exn).

(** [type_hash[type]]: [operator[]] of the unordered map gives the
    value-initialised [char] for a key that is absent. *)
Definition hash_at (type_hash : gmap string ascii) (type : string) : ascii :=
  default "000"%char (type_hash !! type).

(** ** frameserver *)

(** What [po::store]/[po::notify] leave in the variables map: which options
    were given, and the values bound to [type] and [sink]. *)
Record frameserve_options : Type := mkFsOpts {
  fs_help : bool;
  fs_version : bool;
  fs_type : option string;
  fs_sink : option string;
  fs_config_file : bool;
  fs_config_key : bool;
  fs_video_file : bool
}.

(** The command line as the parser sees it: it is parsed, or the parser
    throws, leaving [type] with the value it had reached. *)
Inductive frameserve_argv : Type :=
| FsParsed (o : frameserve_options)
| FsParseThrows (e : exn) (type : string).

(** What the camera does once it exists: each step runs or throws. *)
Record camera_behaviour : Type := mkCamera {
  cam_construct : option exn;
  cam_configure : option exn;
  cam_run : option exn
}.

Definition frameserve_type_hash : gmap string ascii :=
  <["wcam" := "a"%char]> (<["gige" := "b"%char]> (<["file" := "c"%char]> ∅)).

(** The [try] block of frameserver's [main]: [inl code] is a [return code]
    inside it, [inr type] falls out of it with [type] set. *)
Definition frameserve_try (argv : frameserve_argv) : Z + string :=
  match argv with
  | FsParseThrows e type =>
      if is_std_exception e then inl 1 else inr type
  | FsParsed o =>
      let type := default "" (fs_type o) in
      if fs_help o then inl 0
      else if fs_version o then inl 0
      else if negb (bool_decide (is_Some (fs_type o))) then inl (-1)
      else if negb (bool_decide (is_Some (fs_sink o))) then inl (-1)
      else if (fs_config_file o && negb (fs_config_key o))
              || (negb (fs_config_file o) && fs_config_key o) then inl (-1)
      else if bool_decide (type = "file") && negb (fs_video_file o)
      then inl (-1)
      else inr type
  end.

(** frameserver's [main]. *)
Definition frameserve_main (argv : frameserve_argv) (cam : camera_behaviour)
  : exit :=
  match frameserve_try argv with
  | inl code => Return code
  | inr type =>
      let c := hash_at frameserve_type_hash type in
      if bool_decide (c = "a"%char) || bool_decide (c = "b"%char)
         || bool_decide (c = "c"%char) then
        match cam_construct cam with
        | Some e => Terminate e
        | None =>
            match cam_configure cam with
            | Some e => Terminate e
            | None =>
                match cam_run cam with
                | Some e => Terminate e
                | None => Return 0
                end
            end
        end
      else Return (-1)
  end.

(** ** posifilt *)

Record posifilt_options : Type := mkPfOpts {
  pf_help : bool;
  pf_version : bool;
  pf_type : option string;
  pf_source : option string;
  pf_sink : option string
}.

Inductive posifilt_argv : Type :=
| PfParsed (o : posifilt_options)
| PfParseThrows (e : exn).

(** What the filter does once it is asked for: each step runs or throws. *)
Record filter_behaviour : Type := mkFilter {
  flt_construct : option exn;
  flt_append_options : option exn;
  flt_reparse : option exn;
  flt_configure : option exn;
  flt_run : option exn
}.

Definition posifilt_type_hash : gmap string ascii :=
  <["kalman" := "a"%char]>
    (<["homography" := "b"%char]> (<["region" := "c"%char]> ∅)).

(** [run(filter)]: an interprocess exception with error code 1 (SIGINT
    during a wait) is normal and ends the loop; any other exception goes on
    to the caller. *)
Definition posifilt_run (f : filter_behaviour) : option exn :=
  match flt_run f with
  | Some (interprocess_exception code) =>
      if code =? 1 then None else Some (interprocess_exception code)
  | other => other
  end.

(** A step of the [try] block that may throw. *)
Definition step (r : option exn) (k : exn + Z) : exn + Z :=
  match r with
  | Some e => inl e
  | None => k
  end.

(** The [try] block of posifilt's [main]: [inr code] is a [return code]
    inside it, [inl e] an exception thrown out of it.  The erase of the
    first three collected tokens before the second pass is taken to
    succeed here; [posifilt_try_collected] below has it. *)
Definition posifilt_try (argv : posifilt_argv) (f : filter_behaviour)
  : exn + Z :=
  match argv with
  | PfParseThrows e => inl e
  | PfParsed o =>
      let rest :=
        if pf_help o then inr 0
        else if pf_version o then inr 0
        else if negb (bool_decide (is_Some (pf_type o)))
                || negb (bool_decide (is_Some (pf_source o)))
                || negb (bool_decide (is_Some (pf_sink o)))
        then inr (-1)
        else
          step (flt_reparse f) (step (flt_configure f)
            (step (posifilt_run f) (inr 0))) in
      match pf_type o with
      | Some type =>
          let c := hash_at posifilt_type_hash type in
          if bool_decide (c = "a"%char) || bool_decide (c = "b"%char)
             || bool_decide (c = "c"%char) then
            step (flt_construct f) (step (flt_append_options f) rest)
          else inr (-1)
      | None => rest
      end
  end.

(** posifilt's [main]: every handler falls through to [return -1]. *)
Definition posifilt_main (argv : posifilt_argv) (f : filter_behaviour) : exit :=
  match posifilt_try argv f with
  | inr code => Return code
  | inl _ => Return (-1)
  end.

(** ** posifilt, with the tokens kept for the filter *)

(** [#define REQ_POSITIONAL_ARGS 3] *)
Definition REQ_POSITIONAL_ARGS : nat := 3.

(** How [main] ends when its second pass over the command line is taken
    into account: as above, or in an erase of more tokens than there are,
    which is undefined. *)
Inductive ending : Type :=
| Ends (e : exit)
| ErasesPastEnd.

(** The [try] block of posifilt's [main] in full.  [collected] is the number
    of tokens [po::collect_unrecognized(parsed_opt.options,
    po::include_positional)] returns: the positional tokens and the options
    the first pass did not know.  Before the second pass [main] does
    [special_opt.erase(begin, begin + REQ_POSITIONAL_ARGS)], whatever their
    number; [None] is that erase running past the end. *)
Definition posifilt_try_collected (argv : posifilt_argv) (collected : nat)
    (f : filter_behaviour) : option (exn + Z) :=
  match argv with
  | PfParseThrows e => Some (inl e)
  | PfParsed o =>
      let rest :=
        if pf_help o then Some (inr 0)
        else if pf_version o then Some (inr 0)
        else if negb (bool_decide (is_Some (pf_type o)))
                || negb (bool_decide (is_Some (pf_source o)))
                || negb (bool_decide (is_Some (pf_sink o)))
        then Some (inr (-1))
        else if (collected <? REQ_POSITIONAL_ARGS)%nat then None
        else
          Some (step (flt_reparse f) (step (flt_configure f)
                  (step (posifilt_run f) (inr 0)))) in
      match pf_type o with
      | Some type =>
          let c := hash_at posifilt_type_hash type in
          if bool_decide (c = "a"%char) || bool_decide (c = "b"%char)
             || bool_decide (c = "c"%char) then
            match flt_construct f with
            | Some e => Some (inl e)
            | None =>
                match flt_append_options f with
                | Some e => Some (inl e)
                | None => rest
                end
            end
          else Some (inr (-1))
      | None => rest
      end
  end.

(** posifilt's [main] in full. *)
Definition posifilt_main_collected (argv : posifilt_argv) (collected : nat)
    (f : filter_behaviour) : ending :=
  match posifilt_try_collected argv collected f with
  | Some (inr code) => Ends (Return code)
  | Some (inl _) => Ends (Return (-1))
  | None => ErasesPastEnd
  end.

(** ** The serving loops *)

(** One turn of a serving loop as [run] sees it: whether SIGINT arrived
    during the turn, and what [serveMat()] (frameserver) or [process()]
    (posifilt) returned. *)
Record turn : Type := mkTurn { sigint : bool; end_of_stream : bool }.

(** [while (!quit && !eof) eof = serve();] of both [run] functions, with
    the flags [quit] and [eof] as they are on entry.  The result is the
    flags at the exit and the number of turns served; [None] when the loop
    is still going after the turns given. *)
Fixpoint serve_loop (turns : list turn) (quit eof : bool) (served : nat)
  : option (bool * bool * nat) :=
  if quit || eof then Some (quit, eof, served)
  else
    match turns with
    | [] => None
    | t :: turns' =>
        serve_loop turns' (quit || sigint t) (end_of_stream t) (S served)
    end.

(** ** Example invocations *)

(** [frameserve --no-such-option]: the parser throws [po::unknown_option]
    before any value is bound. *)
Definition frameserve_unknown_option : frameserve_argv :=
  FsParseThrows po_error "".

(** [frameserve wcam raw], with a camera whose [configure] throws. *)
Definition frameserve_wcam_raw : frameserve_argv :=
  FsParsed {| fs_help := false; fs_version := false;
              fs_type := Some "wcam"; fs_sink := Some "raw";
              fs_config_file := false; fs_config_key := false;
              fs_video_file := false |}.

Definition camera_ok : camera_behaviour :=
  {| cam_construct := None; cam_configure := None; cam_run := None |}.

Definition camera_bad_config : camera_behaviour :=
  {| cam_construct := None; cam_configure := Some std_runtime_error;
     cam_run := None |}.

Definition posifilt_kalman : posifilt_options :=
  {| pf_help := false; pf_version := false; pf_type := Some "kalman";
     pf_source := Some "pos"; pf_sink := Some "filt" |}.

Definition posifilt_help_typo : posifilt_options :=
  {| pf_help := true; pf_version := false; pf_type := Some "kalmann";
     pf_source := None; pf_sink := None |}.

Definition filter_ok : filter_behaviour :=
  {| flt_construct := None; flt_append_options := None;
     flt_reparse := None; flt_configure := None; flt_run := None |}.

End Cli.

(** * HSV blob sifting (positiondetector/HSVDetector.cpp) *)

Module HSV.

(** [cv::Vec4i], an entry of the contour hierarchy: next and previous
    contour at the same level, first child, parent; negative for none. *)
Record Vec4i : Type := mkVec4i { v0 : Z; v1 : Z; v2 : Z; v3 : Z }.

(** The contours the loop visits from [index] on: it follows the links to
    the next contour of the same level until there is none. *)
Inductive top_level (hierarchy : list Vec4i) : Z → list nat → Prop :=
| top_level_end index :
    index < 0 → top_level hierarchy index []
| top_level_next index hv rest :
    0 <= index →
    hierarchy !! Z.to_nat index = Some hv →
    top_level hierarchy (v0 hv) rest →
    top_level hierarchy index (Z.to_nat index :: rest).

(** The contours [siftBlobs] looks at: none without a hierarchy, else the
    top-level ones from contour 0 on. *)
Definition sifted (hierarchy : list Vec4i) (visited : list nat) : Prop :=
  match hierarchy with
  | [] => visited = []
  | _ => top_level hierarchy 0 visited
  end.

Section Detector.

(** The numbers ([double]) with the operations the detector uses on them:
    the comparison [a < b], the constant 0 and the division. *)
Variable R : Type.
Variable zero : R.
Variable ltb : R → R → bool.
Variable div : R → R → R.

(** The spatial moments [cv::moments] computes for a contour. *)
Record Moments : Type := mkMoments { m00 : R; m10 : R; m01 : R }.

Record Point2D : Type := mkPoint { x : R; y : R }.

Record Position2D : Type := mkPosition {
  position_valid : bool;
  position : Point2D
}.

Record HSVDetector : Type := mkDetector {
  min_object_area : R;
  max_object_area : R;
  object_area : R;
  object_position : Position2D
}.

(** The body of the loop of [siftBlobs] for one contour: keep it if it is
    the largest so far within the area bounds. *)
Definition consider (moment : Moments) (d : HSVDetector) : HSVDetector :=
  let area := m00 moment in
  if ltb (min_object_area d) area && ltb area (max_object_area d)
     && ltb (object_area d) area
  then {| min_object_area := min_object_area d;
          max_object_area := max_object_area d;
          object_area := area;
          object_position :=
            {| position_valid := true;
               position := {| x := div (m10 moment) area;
                              y := div (m01 moment) area |} |} |}
  else d.

(** [for (int index = 0; index >= 0; index = hierarchy[index][0])].
    [contours] holds the moments of each contour.  The loop ends when the
    index turns negative; [None] when [fuel] rounds do not get there or an
    index is outside the vectors. *)
Fixpoint sift_loop (fuel : nat) (contours : list Moments)
    (hierarchy : list Vec4i) (index : Z) (d : HSVDetector)
  : option HSVDetector :=
  if index <? 0 then Some d
  else
    match fuel with
    | O => None
    | S fuel' =>
        match contours !! Z.to_nat index, hierarchy !! Z.to_nat index with
        | Some moment, Some hv =>
            sift_loop fuel' contours hierarchy (v0 hv) (consider moment d)
        | _, _ => None
        end
    end.

(** [HSVDetector::siftBlobs()], on the contours and hierarchy that
    [cv::findContours] returned.  The drawing done when tuning is on does not
    touch [object_position]. *)
Definition siftBlobs (fuel : nat) (contours : list Moments)
    (hierarchy : list Vec4i) (d : HSVDetector) : option HSVDetector :=
  let d0 := {| min_object_area := min_object_area d;
               max_object_area := max_object_area d;
               object_area := zero;
               object_position :=
                 {| position_valid := false;
                    position := position (object_position d) |} |} in
  if (0 <? length hierarchy)%nat
  then sift_loop fuel contours hierarchy 0 d0
  else Some d0.

(** [HSVDetector::detectPosition(frame)]: the image steps end in
    [findContours]; the position returned is the one [siftBlobs] leaves.
    The call of [tune()] after [siftBlobs], which shows the tuning window
    and lets its trackbars write to the detector, does not touch
    [object_position] and is left out. *)
Definition detectPosition (fuel : nat) (contours : list Moments)
    (hierarchy : list Vec4i) (d : HSVDetector)
  : option (HSVDetector * Position2D) :=
  match siftBlobs fuel contours hierarchy d with
  | Some d' => Some (d', object_position d')
  | None => None
  end.

(** *** Vocabulary of the properties *)

(** The area of the contour lies strictly between the detector's bounds. *)
Definition in_bounds (d : HSVDetector) (m : Moments) : Prop :=
  ltb (min_object_area d) (m00 m) = true ∧
  ltb (m00 m) (max_object_area d) = true.

(** [(m10 / m00, m01 / m00)]. *)
Definition centroid (m : Moments) : Point2D :=
  {| x := div (m10 m) (m00 m); y := div (m01 m) (m00 m) |}.

(** The loop over the moments of the contours it visits. *)
Definition sift_list (ms : list Moments) (d : HSVDetector)
  : HSVDetector :=
  foldl (λ d m, consider m d) d ms.

(** What the loop has found after the contours [seen], for the bounds of
    [d0]: either nothing, and then no contour seen is within the bounds, or
    a contour within the bounds that no other such contour exceeds. *)
Definition found (d0 : HSVDetector) (seen : list Moments) (d : HSVDetector)
  : Prop :=
  min_object_area d = min_object_area d0 ∧
  max_object_area d = max_object_area d0 ∧
  if position_valid (object_position d) then
    ∃ m, m ∈ seen ∧ in_bounds d0 m ∧ object_area d = m00 m ∧
         position (object_position d) = centroid m ∧
         ∀ m', m' ∈ seen → in_bounds d0 m' → ltb (m00 m) (m00 m') = false
  else
    object_area d = zero ∧ ∀ m', m' ∈ seen → ¬ in_bounds d0 m'.

End Detector.

Arguments mkMoments {R}.
Arguments m00 {R}.
Arguments m10 {R}.
Arguments m01 {R}.
Arguments mkPoint {R}.
Arguments x {R}.
Arguments y {R}.
Arguments mkPosition {R}.
Arguments position_valid {R}.
Arguments position {R}.
Arguments mkDetector {R}.
Arguments min_object_area {R}.
Arguments max_object_area {R}.
Arguments object_area {R}.
Arguments object_position {R}.
Arguments consider {R}.
Arguments sift_loop {R}.
Arguments siftBlobs {R}.
Arguments detectPosition {R}.
Arguments in_bounds {R}.
Arguments centroid {R}.
Arguments sift_list {R}.
Arguments found {R}.

(** ** Erosion and dilation *)

(** The detector's morphology settings.  An element is the side of the
    square [cv::getStructuringElement(MORPH_RECT, Size(px, px))] builds. *)
Record Morph : Type := mkMorph {
  erode_on : bool;
  erode_px : Z;
  erode_element : Z;
  dilate_on : bool;
  dilate_px : Z;
  dilate_element : Z
}.

(** [HSVDetector::set_erode_size(value)]. *)
Definition set_erode_size (value : Z) (m : Morph) : Morph :=
  if 0 <? value then
    {| erode_on := true; erode_px := value; erode_element := value;
       dilate_on := dilate_on m; dilate_px := dilate_px m;
       dilate_element := dilate_element m |}
  else
    {| erode_on := false; erode_px := erode_px m;
       erode_element := erode_element m;
       dilate_on := dilate_on m; dilate_px := dilate_px m;
       dilate_element := dilate_element m |}.

(** [HSVDetector::set_dilate_size(value)]. *)
Definition set_dilate_size (value : Z) (m : Morph) : Morph :=
  if 0 <? value then
    {| erode_on := erode_on m; erode_px := erode_px m;
       erode_element := erode_element m;
       dilate_on := true; dilate_px := value; dilate_element := value |}
  else
    {| erode_on := erode_on m; erode_px := erode_px m;
       erode_element := erode_element m;
       dilate_on := false; dilate_px := dilate_px m;
       dilate_element := dilate_element m |}.

(** What the constructor does to the settings, which start out with
    whatever was in memory: [set_erode_size(0); set_dilate_size(10);]. *)
Definition construct_morph (m : Morph) : Morph :=
  set_dilate_size 10 (set_erode_size 0 m).

(** A move of one of the two size sliders; the callbacks
    [erodeSliderChangedCallback] and [dilateSliderChangedCallback] pass the
    value to the setter. *)
Inductive slider : Type :=
| ErodeSlider (value : Z)
| DilateSlider (value : Z).

Definition slider_changed (c : slider) (m : Morph) : Morph :=
  match c with
  | ErodeSlider value => set_erode_size value m
  | DilateSlider value => set_dilate_size value m
  end.

Definition after_sliders (moves : list slider) (m : Morph) : Morph :=
  foldl (λ m c, slider_changed c m) m moves.

(** The settings are usable: an operation that is on has an element of
    positive side, the one its size says. *)
Definition morph_ok (m : Morph) : Prop :=
  (erode_on m = true → 0 < erode_px m ∧ erode_element m = erode_px m) ∧
  (dilate_on m = true → 0 < dilate_px m ∧ dilate_element m = dilate_px m).

Section ErodeDilate.

(** The threshold image and the two OpenCV operations on it, each with
    the side of its square element. *)
Variable Image : Type.
Variable erode : Z → Image → Image.
Variable dilate : Z → Image → Image.

(** [HSVDetector::erodeDilate()]. *)
Definition erodeDilate (m : Morph) (threshold_image : Image) : Image :=
  let eroded :=
    if erode_on m then erode (erode_element m) threshold_image
    else threshold_image in
  if dilate_on m then dilate (dilate_element m) eroded else eroded.

End ErodeDilate.

Arguments erodeDilate {Image}.

(** ** An example frame: a ring *)

(** Integer-valued numbers are enough for the example. *)
Definition ring_contours : list (Moments Z) :=
  [ {| m00 := 900; m10 := 45000; m01 := 36000 |};
    {| m00 := 400; m10 := 20000; m01 := 16000 |} ].

(** [RETR_CCOMP]: the outer boundary is at the top level and has the hole
    as its child. *)
Definition ring_hierarchy : list Vec4i :=
  [ {| v0 := -1; v1 := -1; v2 := 1; v3 := -1 |};
    {| v0 := -1; v1 := -1; v2 := -1; v3 := 0 |} ].

Definition detector_100_500 : HSVDetector Z :=
  {| min_object_area := 100; max_object_area := 500; object_area := 0;
     object_position :=
       {| position_valid := false; position := {| x := 0; y := 0 |} |} |}.

(** The detector after a frame in which it saw an object at (7, 9). *)
Definition detector_seen_7_9 : HSVDetector Z :=
  {| min_object_area := 100; max_object_area := 500; object_area := 300;
     object_position :=
       {| position_valid := true; position := {| x := 7; y := 9 |} |} |}.

Definition detector_100_1000 : HSVDetector Z :=
  {| min_object_area := 100; max_object_area := 1000; object_area := 0;
     object_position :=
       {| position_valid := false; position := {| x := 0; y := 0 |} |} |}.

End HSV.

(** * The recorder's sample loop (recorder/Recorder.cpp) *)

Module Rec.

(** Modelled from the spec: what a Source's [wait()] returns
    ([wait() -> NodeState], ACTIVE or END). *)
Inductive NodeState : Type := ACTIVE | END.

#[global] Instance NodeState_eq_dec : EqDecision NodeState.
Proof. solve_decision. Defined.

(** The one exception [writeStreams] throws itself:
    [std::runtime_error("Frame buffer overrun. ...")]. *)
Inductive error : Type := frame_buffer_overrun.

Inductive result (A : Type) : Type :=
| Returns (a : A)
| Throws (e : error).
Arguments Returns {A} a.
Arguments Throws {A} e.

(** One cycle of a frame source as the recorder sees it: what [wait()]
    returns, and whether the frame queue takes the clone. *)
Record FrameCycle : Type := mkFrameCycle {
  frame_wait : NodeState;
  frame_push : bool
}.

(** One cycle of a position source: what [wait()], [write_number()] and
    [clone()] return. *)
Record PositionCycle : Type := mkPositionCycle {
  position_wait : NodeState;
  position_number : Z;
  position_clone : Z
}.

Record Recorder : Type := mkRecorder {
  source_eof_ : bool;
  record_on_ : bool;
  position_write_number_ : list Z;
  positions_ : list Z;
  position_fp_ : bool;
  position_file : list (list Z)
}.

Definition set_source_eof (b : bool) (r : Recorder) : Recorder :=
  {| source_eof_ := b;
     record_on_ := record_on_ r;
     position_write_number_ := position_write_number_ r;
     positions_ := positions_ r;
     position_fp_ := position_fp_ r;
     position_file := position_file r |}.

(** The first loop of [writeStreams]: one cycle per frame source. *)
Fixpoint read_frames (cycles : list FrameCycle) (r : Recorder)
  : Recorder * option error :=
  match cycles with
  | [] => (r, None)
  | c :: cycles' =>
      let r1 :=
        set_source_eof
          (source_eof_ r || bool_decide (frame_wait c = END)) r in
      if record_on_ r1 && negb (frame_push c)
      then (r1, Some frame_buffer_overrun)
      else read_frames cycles' r1
  end.

(** The second loop: one cycle per position source, from index [i] on.
    The constructor gives [position_write_number_] and [positions_] one
    entry per position source, so the writes are in range. *)
Fixpoint read_positions (i : nat) (cycles : list PositionCycle) (r : Recorder)
  : Recorder :=
  match cycles with
  | [] => r
  | c :: cycles' =>
      read_positions (S i) cycles'
        {| source_eof_ :=
             source_eof_ r || bool_decide (position_wait c = END);
           record_on_ := record_on_ r;
           position_write_number_ :=
             <[i := position_number c]> (position_write_number_ r);
           positions_ := <[i := position_clone c]> (positions_ r);
           position_fp_ := position_fp_ r;
           position_file := position_file r |}
  end.

(** [writePositionsToFile()]: one object per call while the file is open. *)
Definition writePositionsToFile (r : Recorder) : Recorder :=
  if position_fp_ r then
    {| source_eof_ := source_eof_ r;
       record_on_ := record_on_ r;
       position_write_number_ := position_write_number_ r;
       positions_ := positions_ r;
       position_fp_ := position_fp_ r;
       position_file := position_file r ++ [positions_ r] |}
  else r.

(** [Recorder::writeStreams()]. *)
Definition writeStreams (frames : list FrameCycle)
    (positions : list PositionCycle) (r : Recorder)
  : Recorder * result bool :=
  match read_frames frames r with
  | (r1, Some e) => (r1, Throws e)
  | (r1, None) =>
      let r2 := read_positions 0 positions r1 in
      let r3 := if record_on_ r2 then writePositionsToFile r2 else r2 in
      (r3, Returns (source_eof_ r3))
  end.

(** A run of calls: the recorder after them and how each one ended. *)
Fixpoint run_calls (calls : list (list FrameCycle * list PositionCycle))
    (r : Recorder) : Recorder * list (result bool) :=
  match calls with
  | [] => (r, [])
  | (fs, ps) :: calls' =>
      let '(r1, out) := writeStreams fs ps r in
      let '(r2, outs) := run_calls calls' r1 in
      (r2, out :: outs)
  end.

(** ** The sample period check of [connectToNodes] *)

Section SamplePeriod.

(** The sample periods ([double]): equality, the comparison [a < b] and
    the constant -1.0 that stands for "none seen yet". *)
Variable R : Type.
Variable eqb : R → R → bool.
Variable ltb : R → R → bool.
Variable minus_one : R.

(** The three locals of [connectToNodes]. *)
Record period_check : Type := mkPeriodCheck {
  ts : R;
  ts_last : R;
  ts_consistent : bool
}.

(** [bool ts_consistent = true; double ts {-1.0}, ts_last {-1.0};] *)
Definition period_check_start : period_check :=
  {| ts := minus_one; ts_last := minus_one; ts_consistent := true |}.

(** The body of either loop for a source whose sample period is
    [period]. *)
Definition check_period (c : period_check) (period : R) : period_check :=
  if negb (eqb (ts_last c) minus_one) && negb (eqb period (ts_last c))
  then {| ts := if ltb (ts_last c) period then period else ts_last c;
          ts_last := ts_last c;
          ts_consistent := false |}
  else {| ts := period; ts_last := period;
          ts_consistent := ts_consistent c |}.

(** The loop over the frame sources, then the one over the position
    sources; [sample_rate_hz_] is [1.0 / ts] of the result. *)
Definition check_periods (frame_periods position_periods : list R)
  : period_check :=
  foldl check_period (foldl check_period period_check_start frame_periods)
    position_periods.

(** In vocabulary of the properties: [p] if [l] is the same period, else
    the larger of the two. *)
Definition settled (p l : R) : R :=
  if eqb l p then p else if ltb p l then l else p.

End SamplePeriod.

Arguments mkPeriodCheck {R}.
Arguments ts {R}.
Arguments ts_last {R}.
Arguments ts_consistent {R}.
Arguments period_check_start {R}.
Arguments check_period {R}.
Arguments check_periods {R}.
Arguments settled {R}.

(** ** Vocabulary of the properties *)

(** Some frame source reported END. *)
Definition frames_END (frames : list FrameCycle) : bool :=
  existsb (λ c, bool_decide (frame_wait c = END)) frames.

(** Some position source reported END. *)
Definition positions_END (positions : list PositionCycle) : bool :=
  existsb (λ c, bool_decide (position_wait c = END)) positions.

(** No frame queue refuses a frame while recording. *)
Definition no_overrun (frames : list FrameCycle) (r : Recorder) : bool :=
  negb (record_on_ r) || forallb frame_push frames.

(** The frame cycles a call gets to: all of them, or, while recording,
    those up to and including the first one whose queue refuses the
    frame. *)
Fixpoint frames_reached (frames : list FrameCycle) (recording : bool)
  : list FrameCycle :=
  match frames with
  | [] => []
  | c :: frames' =>
      if recording && negb (frame_push c) then [c]
      else c :: frames_reached frames' recording
  end.

(** Some [wait()] of the call returned END: one of a frame source the call
    got to, or one of a position source when no overrun cut the call
    short. *)
Definition END_returned (frames : list FrameCycle)
    (positions : list PositionCycle) (r : Recorder) : bool :=
  frames_END (frames_reached frames (record_on_ r))
  || (no_overrun frames r && positions_END positions).

(** ** Example: a recording recorder with one frame source *)

Definition recording : Recorder :=
  {| source_eof_ := false; record_on_ := true;
     position_write_number_ := []; positions_ := [];
     position_fp_ := false; position_file := [] |}.

(** The source reports END and the frame queue is full. *)
Definition last_frame_overrun : list FrameCycle :=
  [ {| frame_wait := END; frame_push := false |} ].

End Rec.

(** * Properties of the Source facade *)

Module ShmemFacts.
Import Shmem.

(** ** Facts about the store *)

Lemma get_set_node h p n n' :
  get_node h p = Some n → get_node (set_node p n' h) p = Some n'.
Proof.
  unfold get_node, set_node; simpl. intros H.
  rewrite lookup_alter_eq.
  destruct (segments h !! ptr_seg p) as [sg|]; [|done].
  simpl. apply lookup_insert_eq.
Qed.

Lemma names_set_node h p n : names (set_node p n h) = names h.
Proof. reflexivity. Qed.

Lemma set_node_id h p n : get_node h p = Some n → set_node p n h = h.
Proof.
  destruct h as [nm sgs], p as [id name]. unfold get_node, set_node; simpl.
  intros H. f_equal.
  destruct (sgs !! id) as [sg|] eqn:E; [|done].
  apply map_eq; intros j. destruct (decide (id = j)) as [<-|Hne].
  - rewrite lookup_alter_eq, E. simpl. f_equal.
    destruct sg as [b nd ob]; unfold seg_set_node; simpl in *.
    f_equal. by apply insert_id.
  - by rewrite lookup_alter_ne.
Qed.

Lemma get_object_set_node h p n q :
  get_object (set_node p n h) q = get_object h q.
Proof.
  unfold get_object, set_node; simpl.
  destruct (decide (ptr_seg p = ptr_seg q)) as [<-|Hne].
  - rewrite lookup_alter_eq. by destruct (segments h !! ptr_seg p).
  - by rewrite lookup_alter_ne.
Qed.

Lemma deref_node_Some h s p n :
  node_ s = Some p → get_node h p = Some n → deref_node h s = Some (p, n).
Proof. unfold deref_node. by intros -> ->. Qed.

Lemma wrap_small z : 0 <= z < 2 ^ SIZE_BITS → wrap z = z.
Proof. intros H. unfold wrap. by apply Z.mod_small. Qed.

Lemma wrap_range z : 0 <= wrap z < 2 ^ SIZE_BITS.
Proof. unfold wrap. apply Z.mod_pos_bound. by vm_compute. Qed.

(** What [post()] does to the Node, field by field. *)
Lemma post_node_spec n :
  let incremented := wrap (source_read_count n + 1) in
  source_read_count (post_node n) = incremented ∧
  source_ref_count (post_node n) = source_ref_count n ∧
  sink_state (post_node n) = sink_state n ∧
  read_barriers (post_node n) = read_barriers n ∧
  write_barrier (post_node n) =
    (if incremented =? source_ref_count n
     then S (write_barrier n) else write_barrier n).
Proof.
  unfold post_node, incrementSourceReadCount; simpl.
  by destruct (wrap (source_read_count n + 1) =? source_ref_count n).
Qed.

(** ** post() *)

(** C4: [post()] increments [source_read_count] and posts [write_barrier]
    exactly when the incremented value equals [source_ref_count]; otherwise
    the write barrier keeps its tokens.  The increment is the [size_t] one;
    below the type's maximum it is [+ 1]. *)
Theorem post_increments_then_posts_iff_all_read
    (s : Source) (h : Host) (p : Ptr) (n : Node) :
  node_ s = Some p →
  get_node h p = Some n →
  let incremented := wrap (source_read_count n + 1) in
  ∃ n',
    post s h = (set_node p n' h, Ok tt) ∧
    get_node (set_node p n' h) p = Some n' ∧
    source_read_count n' = incremented ∧
    (0 <= source_read_count n < 2 ^ SIZE_BITS - 1 →
       incremented = source_read_count n + 1) ∧
    source_ref_count n' = source_ref_count n ∧
    (write_barrier n' = sem_post (write_barrier n)
       ↔ incremented = source_ref_count n) ∧
    (incremented ≠ source_ref_count n → write_barrier n' = write_barrier n).
Proof.
  intros Hp Hn incremented.
  exists (post_node n).
  destruct (post_node_spec n) as (Hr & Hc & _ & _ & Hw).
  fold incremented in Hr, Hw.
  split; [|split; [|split; [|split; [|split; [|split]]]]].
  - unfold post. by rewrite (deref_node_Some h s p n).
  - by apply get_set_node with n.
  - done.
  - intros Hrange. unfold incremented. apply wrap_small. lia.
  - done.
  - rewrite Hw. unfold sem_post.
    destruct (Z.eqb_spec incremented (source_ref_count n)); split; try done; lia.
  - intros Hne. rewrite Hw.
    by destruct (Z.eqb_spec incremented (source_ref_count n)).
Qed.

Lemma post_increments_then_posts_iff_all_read_witness :
  ∃ n',
    post (snd attached_raw) (fst attached_raw)
      = (set_node raw_node_ptr n' (fst attached_raw), Ok tt) ∧
    source_read_count n' = 1 ∧ write_barrier n' = 1%nat.
Proof.
  destruct (post_increments_then_posts_iff_all_read
              (snd attached_raw) (fst attached_raw) raw_node_ptr
              (set_source_ref_count 1 Node_new))
    as (n' & Hpost & _ & Hr & _ & _ & Hw & _); [reflexivity | reflexivity |].
  exists n'. split; [exact Hpost|]. split; [exact Hr|].
  apply Hw. reflexivity.
Defined.

(** ** The destructor *)

(** What [~SourceBase()] does for a bound Source, in full. *)
Lemma destroy_bound_spec (s : Source) (h : Host) (p : Ptr) (n : Node) :
  shmem_bound_ s = true →
  node_ s = Some p →
  get_node h p = Some n →
  let c := wrap (source_ref_count n - 1) in
  let last := (c =? 0) && bool_decide (sink_state n ≠ BOUND) in
  let n' := if last then post_node (set_source_ref_count c n)
            else set_source_ref_count c n in
  let h' := if last then shm_remove (address_ s) (set_node p n' h)
            else set_node p n' h in
  destroy s h = (h', Ok tt) ∧ get_node h' p = Some n' ∧
  source_ref_count n' = c.
Proof.
  intros Hb Hp Hn c last n' h'.
  assert (Hget : get_node h' p = Some n').
  { subst h'. destruct last; [change (get_node (set_node p n' h) p = Some n')|];
      by apply get_set_node with n. }
  split; [|split; [done|]].
  - unfold destroy. rewrite Hb, (deref_node_Some h s p n) by done.
    unfold decrementSourceRefCount. fold c. simpl.
    change (sink_state (set_source_ref_count c n)) with (sink_state n).
    fold last. subst h' n'. destruct last; [|done].
    unfold post.
    rewrite (deref_node_Some _ s p (set_source_ref_count c n)); [|done|].
    + f_equal. f_equal. unfold set_node; simpl. f_equal.
      apply map_eq; intros j. destruct (decide (ptr_seg p = j)) as [<-|Hne].
      * rewrite !lookup_alter_eq.
        destruct (segments h !! ptr_seg p) as [sg|]; [|done]. simpl.
        f_equal. unfold seg_set_node; simpl. f_equal.
        by rewrite insert_insert_eq.
      * by rewrite !lookup_alter_ne.
    + by apply get_set_node with n.
  - subst n'. destruct last; [|done].
    by destruct (post_node_spec (set_source_ref_count c n)) as (_ & -> & _).
Qed.

(** The parts of C1 that hold: a bound Source's destructor decrements
    [source_ref_count], and when the new count is 0 with the sink not bound
    it unlinks the name.  The write barrier gets a token only if the read
    count wraps round to 0. *)
Lemma destroy_decrements_and_unlinks
    (s : Source) (h : Host) (p : Ptr) (n : Node) :
  shmem_bound_ s = true →
  node_ s = Some p →
  get_node h p = Some n →
  ∃ h' n',
    destroy s h = (h', Ok tt) ∧ get_node h' p = Some n' ∧
    source_ref_count n' = wrap (source_ref_count n - 1) ∧
    (source_ref_count n' = 0 → sink_state n ≠ BOUND →
       names h' = delete (address_ s) (names h) ∧
       (write_barrier n' ≠ write_barrier n
          → wrap (source_read_count n + 1) = 0)).
Proof.
  intros Hb Hp Hn.
  destruct (destroy_bound_spec s h p n Hb Hp Hn) as (Hd & Hg & Hc).
  eexists _, _. split; [exact Hd|]. split; [exact Hg|]. split; [exact Hc|].
  intros H0 Hst. rewrite Hc in H0. rewrite H0 in *. simpl.
  rewrite bool_decide_eq_true_2 by done. simpl. split; [done|].
  destruct (post_node_spec (set_source_ref_count 0 n)) as (_ & _ & _ & _ & Hw).
  rewrite Hw. simpl.
  destruct (Z.eqb_spec (wrap (source_read_count n + 1)) 0); [done|].
  intros Hne. by destruct Hne.
Qed.

(** C1: the last consumer of ["raw"] goes away while no sink is bound.  Its
    destructor decrements the count to 0 and unlinks the name, but the call
    of [post()] in it adds no token to the write barrier: it makes the read
    count 1 and compares that with the count of consumers, now 0. *)
Theorem destroy_last_source_adds_no_write_token :
  ∃ n h' n',
    get_node (fst attached_raw) raw_node_ptr = Some n ∧
    shmem_bound_ (snd attached_raw) = true ∧
    sink_state n = UNDEFINED ∧ source_ref_count n = 1 ∧
    source_read_count n = 0 ∧ write_barrier n = 0%nat ∧
    destroy (snd attached_raw) (fst attached_raw) = (h', Ok tt) ∧
    get_node h' raw_node_ptr = Some n' ∧
    source_ref_count n' = 0 ∧
    names h' !! "raw" = None ∧
    source_read_count n' = 1 ∧
    write_barrier n' = 0%nat.
Proof.
  eexists _, _, _.
  split; [vm_compute; reflexivity|].
  split; [reflexivity|].
  split; [reflexivity|]. split; [reflexivity|].
  split; [reflexivity|]. split; [reflexivity|].
  split; [vm_compute; reflexivity|].
  split; [vm_compute; reflexivity|].
  repeat split.
Qed.

(** C8: the destructor of a Source that is not bound ([shmem_bound_] is
    false: [bind] was never called, or threw) leaves the host as it was: no
    Node changes and no name is unlinked. *)
Theorem destroy_unbound_changes_nothing (s : Source) (h : Host) :
  shmem_bound_ s = false →
  destroy s h = (h, Ok tt) ∧
  names (fst (destroy s h)) = names h ∧
  ∀ p, get_node (fst (destroy s h)) p = get_node h p.
Proof.
  intros Hb. unfold destroy. rewrite Hb. done.
Qed.

Lemma Source_new_unbound : shmem_bound_ Source_new = false.
Proof. reflexivity. Qed.

(** A [bind] that does not return normally leaves [shmem_bound_] as it was. *)
Lemma bind_failed_unbound (s : Source) (address : string) (bytes : Z) (h : Host) :
  snd (bind s address bytes h) ≠ Ok tt →
  shmem_bound_ (snd (fst (bind s address bytes h))) = shmem_bound_ s.
Proof.
  unfold bind. destruct (open_or_create address bytes h) as [h1 id].
  destruct (get_node _ _) as [n|]; [|done].
  destruct (incrementSourceRefCount n) as [e|[n' idx]]; [done|].
  simpl. intros H. by destruct H.
Qed.

Lemma destroy_unbound_changes_nothing_witness :
  snd (bind Source_new "raw" 0 (attach_more 10 Host_empty))
    = Throw too_many_consumers ∧
  node_ (snd full_raw) = Some raw_node_ptr ∧
  destroy (snd full_raw) (fst full_raw) = (fst full_raw, Ok tt).
Proof.
  split; [vm_compute; reflexivity|]. split; [reflexivity|].
  apply (destroy_unbound_changes_nothing (snd full_raw) (fst full_raw)).
  reflexivity.
Defined.

(** ** read() *)

(** C5, as the code has it: [read()] raises the read-without-bound-sink
    error exactly when [sink_state] is not [BOUND].  With the sink [BOUND]
    it re-opens the segment by name: if the name is linked it returns the
    payload handle translated in that mapping, if the name has been unlinked
    the strict open raises segment-not-found. *)
Theorem read_throws_misuse_iff_sink_not_bound
    (s : Source) (h : Host) (p q : Ptr) (n : Node) (o : SharedCVMat) :
  node_ s = Some p →
  get_node h p = Some n →
  object_ s = Some q →
  get_object h q = Some o →
  (read s h = Throw (runtime_error read_error) ↔ sink_state n ≠ BOUND) ∧
  (sink_state n = BOUND → ∀ id, names h !! address_ s = Some id →
     read s h = Ok (get_address_from_handle id (mat_data o))) ∧
  (sink_state n = BOUND → names h !! address_ s = None →
     read s h = Throw segment_not_found).
Proof.
  intros Hp Hn Hq Ho. unfold read.
  rewrite (deref_node_Some h s p n) by done. unfold open_only.
  rewrite Hq, Ho.
  destruct (decide (sink_state n ≠ BOUND)) as [Hne|Heq].
  - split; [done|]. split; intros HB; by destruct Hne.
  - assert (HB : sink_state n = BOUND).
    { destruct (decide (sink_state n = BOUND)); [done | by destruct Heq]. }
    split; [|split].
    + split; [|done]. by destruct (names h !! address_ s).
    + by intros _ id ->.
    + by intros _ ->.
Qed.

Lemma read_throws_misuse_iff_sink_not_bound_witness :
  read (snd bound_raw) (fst bound_raw)
    = Ok (get_address_from_handle 0 0) ∧
  read (snd attached_raw) (fst attached_raw)
    = Throw (runtime_error read_error).
Proof.
  split.
  - destruct (read_throws_misuse_iff_sink_not_bound
                (snd bound_raw) (fst bound_raw) raw_node_ptr
                {| ptr_seg := 0; ptr_name := "raw/shobj" |}
                (set_sink_state BOUND (set_source_ref_count 1 Node_new))
                SharedCVMat_new)
      as (_ & Hok & _); [reflexivity|reflexivity|reflexivity|reflexivity|].
    apply (Hok eq_refl 0%nat). reflexivity.
  - destruct (read_throws_misuse_iff_sink_not_bound
                (snd attached_raw) (fst attached_raw) raw_node_ptr
                {| ptr_seg := 0; ptr_name := "raw/shobj" |}
                (set_source_ref_count 1 Node_new)
                SharedCVMat_new)
      as (Hthrow & _); [reflexivity|reflexivity|reflexivity|reflexivity|].
    apply Hthrow. discriminate.
Defined.

(** The sink is [BOUND], yet [read()] does not return an address: the name
    has been unlinked and the strict re-open fails. *)
Lemma read_bound_sink_unlinked_segment_throws :
  (∃ n, get_node (fst unlinked_raw) raw_node_ptr = Some n ∧
        node_ (snd unlinked_raw) = Some raw_node_ptr ∧
        sink_state n = BOUND) ∧
  read (snd unlinked_raw) (fst unlinked_raw) = Throw segment_not_found ∧
  ¬ ∃ a, read (snd unlinked_raw) (fst unlinked_raw) = Ok a.
Proof.
  split; [|split].
  - eexists. split; [vm_compute; reflexivity|]. split; reflexivity.
  - vm_compute. reflexivity.
  - intros [a Ha]. vm_compute in Ha. discriminate.
Qed.

(** ** wait() *)

Lemma timed_wait_no_token i n :
  read_barriers n !! Z.to_nat i = Some 0%nat →
  readBarrier_timed_wait i n = (n, false).
Proof. unfold readBarrier_timed_wait. by intros ->. Qed.

Lemma timed_wait_token i n k :
  read_barriers n !! Z.to_nat i = Some (S k) →
  readBarrier_timed_wait i n
    = (set_read_barriers (<[Z.to_nat i := k]> (read_barriers n)) n, true).
Proof. unfold readBarrier_timed_wait. by intros ->. Qed.

Lemma wait_loop_blocked (env : Interference) (p : Ptr) (i : Z) :
  Forall (leaves_barrier_empty p i) env →
  ∀ h, no_token p i h → snd (wait_loop env p i h) = Blocked.
Proof.
  induction 1 as [|e env He _ IH]; intros h (n & Hn & Hi); simpl;
    rewrite Hn, (timed_wait_no_token i n Hi); [done|].
  apply IH, He. by exists n.
Qed.

Lemma wait_loop_never_throws (env : Interference) (p : Ptr) (i : Z) :
  ∀ h e, snd (wait_loop env p i h) ≠ Throw e.
Proof.
  induction env as [|e0 env IH]; intros h e; simpl;
    destruct (get_node h p) as [n|]; try done;
    destruct (readBarrier_timed_wait i n) as [n' [|]]; try done;
    apply IH.
Qed.

(** C2, as the code has it: [wait()] retries a timed wait on the read
    barrier of its slot and returns, without a value, as soon as one attempt
    takes a token.  It never looks at [sink_state]: with a token there it
    returns at once whatever the sink state, and while the slot stays empty
    it keeps retrying, also when [sink_state] is [END]. *)
Theorem wait_returns_on_token_only
    (env : Interference) (s : Source) (h : Host) (p : Ptr) (n : Node) :
  node_ s = Some p →
  get_node h p = Some n →
  let i := Z.to_nat (this_index_ s) in
  (∀ k, read_barriers n !! i = Some (S k) →
     wait env s h
       = (set_node p (set_read_barriers (<[i := k]> (read_barriers n)) n) h,
          Ok tt)) ∧
  (read_barriers n !! i = Some 0%nat →
   Forall (leaves_barrier_empty p (this_index_ s)) env →
   snd (wait env s h) = Blocked) ∧
  (∀ e, snd (wait env s h) ≠ Throw e).
Proof.
  intros Hp Hn i. unfold wait. rewrite Hp. split; [|split].
  - intros k Hk. destruct env; simpl;
      by rewrite Hn, (timed_wait_token _ n k Hk).
  - intros H0 Henv. apply wait_loop_blocked; [done|]. by exists n.
  - apply wait_loop_never_throws.
Qed.

Lemma idle_leaves_barrier_empty p i : leaves_barrier_empty p i id.
Proof. by intros h. Qed.

Lemma wait_returns_on_token_only_witness :
  snd (wait [id; id; id] (snd ended_raw) (fst ended_raw)) = Blocked.
Proof.
  destruct (wait_returns_on_token_only [id; id; id]
              (snd ended_raw) (fst ended_raw) raw_node_ptr
              (set_sink_state END (set_source_ref_count 1 Node_new)))
    as (_ & Hblocked & _); [reflexivity | vm_compute; reflexivity |].
  apply Hblocked; [reflexivity|].
  repeat constructor; apply idle_leaves_barrier_empty.
Defined.

(** [sink_state] is [END] and the sink never posts again: [wait()] does not
    come back with an end-of-stream indication, it is still retrying after
    every timeout. *)
Lemma wait_at_END_keeps_blocking :
  (∃ n, get_node (fst ended_raw) raw_node_ptr = Some n ∧
        node_ (snd ended_raw) = Some raw_node_ptr ∧
        sink_state n = END) ∧
  wait [id; id; id] (snd ended_raw) (fst ended_raw)
    = (fst ended_raw, Blocked) ∧
  ¬ ∃ h', wait [id; id; id] (snd ended_raw) (fst ended_raw) = (h', Ok tt).
Proof.
  split; [|split].
  - eexists. split; [vm_compute; reflexivity|]. split; reflexivity.
  - vm_compute. reflexivity.
  - intros [h' H]. vm_compute in H. discriminate.
Qed.

(** ** connect() *)

(** C3, as the code has it: [connect()] waits on the read barrier exactly
    when [sink_state] is not [BOUND], that is for [UNDEFINED] and for [END];
    with the sink [BOUND] it returns without waiting.  The frame Source then
    builds its view with [read()]. *)
Theorem connect_waits_iff_sink_not_bound
    (env : Interference) (s : Source) (h : Host) (p : Ptr) (n : Node) :
  node_ s = Some p →
  get_node h p = Some n →
  (sink_state n = BOUND →
     connect env s h = (h, Ok tt) ∧
     connect_mat env s h = (h, materialize s h)) ∧
  (sink_state n ≠ BOUND →
     connect env s h = wait env s h ∧
     connect_mat env s h =
       match wait env s h with
       | (h1, Ok _) => (h1, materialize s h1)
       | (h1, Throw e) => (h1, Throw e)
       | (h1, Blocked) => (h1, Blocked)
       | (h1, Undefined) => (h1, Undefined)
       end).
Proof.
  intros Hp Hn. unfold connect, connect_mat.
  rewrite (deref_node_Some h s p n) by done.
  destruct (decide (sink_state n ≠ BOUND)) as [Hne|Heq].
  - split; [intros HB; by destruct Hne | done].
  - split; [done | intros Hne; by destruct Heq].
Qed.

Lemma connect_waits_iff_sink_not_bound_witness :
  connect [] (snd bound_raw) (fst bound_raw) = (fst bound_raw, Ok tt) ∧
  connect [] (snd ended_raw) (fst ended_raw)
    = wait [] (snd ended_raw) (fst ended_raw).
Proof.
  split.
  - apply (connect_waits_iff_sink_not_bound [] (snd bound_raw) (fst bound_raw)
             raw_node_ptr
             (set_sink_state BOUND (set_source_ref_count 1 Node_new)));
      reflexivity.
  - apply (connect_waits_iff_sink_not_bound [] (snd ended_raw) (fst ended_raw)
             raw_node_ptr
             (set_sink_state END (set_source_ref_count 1 Node_new)));
      [reflexivity | reflexivity | discriminate].
Defined.

(** [sink_state] is [END], not [UNDEFINED], and [connect()] still waits on
    the read barrier: it is blocked there after every timeout. *)
Lemma connect_at_END_waits :
  (∃ n, get_node (fst ended_raw) raw_node_ptr = Some n ∧
        node_ (snd ended_raw) = Some raw_node_ptr ∧
        sink_state n = END) ∧
  connect [id; id; id] (snd ended_raw) (fst ended_raw)
    = (fst ended_raw, Blocked) ∧
  connect_mat [id; id; id] (snd ended_raw) (fst ended_raw)
    = (fst ended_raw, Blocked) ∧
  ¬ ∃ h', connect [id; id; id] (snd ended_raw) (fst ended_raw) = (h', Ok tt).
Proof.
  split; [|split; [|split]].
  - eexists. split; [vm_compute; reflexivity|]. split; reflexivity.
  - vm_compute. reflexivity.
  - vm_compute. reflexivity.
  - intros [h' H]. vm_compute in H. discriminate.
Qed.

(** ** bind() *)

Lemma open_or_create_spec (address : string) (bytes : Z) (h : Host) :
  host_wf h →
  ∃ h1 id sg,
    open_or_create address bytes h = (h1, id) ∧
    names h1 !! address = Some id ∧
    segments h1 !! id = Some sg ∧
    (∀ id0, names h !! address = Some id0 →
       id = id0 ∧ h1 = h) ∧
    (names h !! address = None →
       segments h !! id = None ∧ sg = Segment_new bytes).
Proof.
  intros Hwf. unfold open_or_create.
  destruct (names h !! address) as [id|] eqn:E.
  - destruct (Hwf _ _ E) as [sg Hsg].
    exists h, id, sg. split; [done|]. split; [done|]. split; [done|].
    split; [|done]. by intros id0 [= <-].
  - eexists _, _, _. split; [done|]. simpl.
    rewrite !lookup_insert_eq. split; [done|]. split; [done|].
    split; [done|]. intros _. split; [|done].
    apply not_elem_of_dom, is_fresh.
Qed.

Lemma find_or_construct_spec (id : nat) (na oa : string) (h : Host) sg :
  segments h !! id = Some sg →
  let h3 := find_or_construct_object id oa (find_or_construct_node id na h) in
  names h3 = names h ∧
  get_node h3 {| ptr_seg := id; ptr_name := na |}
    = Some (default Node_new (seg_nodes sg !! na)) ∧
  get_object h3 {| ptr_seg := id; ptr_name := oa |}
    = Some (default SharedCVMat_new (seg_objects sg !! oa)).
Proof.
  intros Hsg h3. split; [done|].
  unfold h3, get_node, get_object, find_or_construct_object,
    find_or_construct_node; simpl.
  rewrite !lookup_alter_eq, Hsg. simpl.
  destruct (seg_nodes sg !! na) as [n|] eqn:En;
    destruct (seg_objects sg !! oa) as [o|] eqn:Eo; simpl;
    rewrite ?En, ?Eo; simpl; rewrite ?En, ?Eo, ?lookup_insert_eq; done.
Qed.

(** C6: attaching a consumer to [address] opens the segment if the name is
    linked and creates it otherwise, finds or constructs the Node under
    [address/shmgr] and the payload slot under [address/shobj] whatever the
    sink state (an object found is kept as it is, one constructed is the
    default one), raises [source_ref_count] by one and nothing else, and
    keeps the slot index the Node returned in [this_index_], which is the
    slot [wait()] waits on.  The Node must have a free slot. *)
Theorem bind_attaches_consumer_once
    (s : Source) (address : string) (bytes : Z) (h : Host) :
  host_wf h →
  0 <= consumers_at h address < MAX_CONSUMERS →
  ∃ h' id,
    let p := {| ptr_seg := id; ptr_name := address +:+ "/shmgr" |} in
    let q := {| ptr_seg := id; ptr_name := address +:+ "/shobj" |} in
    let s' := {| object_ := Some q; node_ := Some p; address_ := address;
                 shmem_bound_ := true;
                 this_index_ := consumers_at h address |} in
    bind s address bytes h = (h', s', Ok tt) ∧
    names h' !! address = Some id ∧
    (∀ id0, names h !! address = Some id0 → id = id0) ∧
    (names h !! address = None → segments h !! id = None) ∧
    get_node h' p
      = Some (set_source_ref_count (consumers_at h address + 1)
                (default Node_new (node_at h address))) ∧
    get_object h' q = Some (default SharedCVMat_new (object_at h address)) ∧
    (∀ env h0, wait env s' h0 = wait_loop env p (consumers_at h address) h0).
Proof.
  intros Hwf Hfree.
  destruct (open_or_create_spec address bytes h Hwf)
    as (h1 & id & sg & Hopen & Hname & Hsg & Hold & Hnew).
  destruct (find_or_construct_spec id (address +:+ node_suffix)
              (address +:+ object_suffix) h1 sg Hsg) as (Hnames & Hnode & Hobj).
  assert (Hat : seg_nodes sg !! (address +:+ node_suffix) = node_at h address ∧
                seg_objects sg !! (address +:+ object_suffix)
                  = object_at h address).
  { unfold node_at, object_at, get_node, get_object.
    destruct (names h !! address) as [id0|] eqn:E.
    - destruct (Hold id0 eq_refl) as [<- ->]. simpl. by rewrite Hsg.
    - destruct (Hnew eq_refl) as [_ ->]. simpl. by rewrite !lookup_empty. }
  destruct Hat as [Hnat Hoat]. rewrite Hnat in Hnode. rewrite Hoat in Hobj.
  set (n := default Node_new (node_at h address)) in *.
  assert (Hcount : source_ref_count n = consumers_at h address).
  { unfold consumers_at. subst n. by destruct (node_at h address). }
  assert (Hwrap : wrap (consumers_at h address + 1) = consumers_at h address + 1).
  { apply wrap_small. unfold MAX_CONSUMERS in Hfree.
    change (2 ^ SIZE_BITS) with 18446744073709551616. lia. }
  exists (set_node {| ptr_seg := id; ptr_name := address +:+ node_suffix |}
            (set_source_ref_count (consumers_at h address + 1) n)
            (find_or_construct_object id (address +:+ object_suffix)
               (find_or_construct_node id (address +:+ node_suffix) h1))),
    id.
  cbv zeta. change "/shmgr" with node_suffix. change "/shobj" with object_suffix.
  split; [|split; [|split; [|split; [|split; [|split]]]]].
  - unfold bind. rewrite Hopen. cbv zeta. rewrite Hnode.
    unfold incrementSourceRefCount. rewrite Hcount, Hwrap.
    destruct (Z.leb_spec MAX_CONSUMERS (consumers_at h address)); [lia|done].
  - by rewrite names_set_node, Hnames.
  - intros id0 E. by destruct (Hold id0 E).
  - intros E. by destruct (Hnew E).
  - by apply get_set_node with n.
  - by rewrite get_object_set_node.
  - done.
Qed.

(** The store stays well formed under what a Source does to it. *)
Lemma host_wf_set_node h p n : host_wf h → host_wf (set_node p n h).
Proof.
  intros Hwf name id Hname. destruct (Hwf name id Hname) as [sg Hsg].
  unfold set_node; simpl. destruct (decide (ptr_seg p = id)) as [->|Hne].
  - rewrite lookup_alter_eq, Hsg. by eexists.
  - rewrite lookup_alter_ne by done. by exists sg.
Qed.

Lemma host_wf_shm_remove h name : host_wf h → host_wf (shm_remove name h).
Proof.
  intros Hwf name' id Hname. unfold shm_remove in *; simpl in *.
  apply lookup_delete_Some in Hname as [_ Hname]. by apply (Hwf name').
Qed.

Lemma host_wf_alter h f id :
  host_wf h → host_wf {| names := names h; segments := alter f id (segments h) |}.
Proof.
  intros Hwf name id' Hname. destruct (Hwf name id' Hname) as [sg Hsg]. simpl.
  destruct (decide (id = id')) as [->|Hne].
  - rewrite lookup_alter_eq, Hsg. by eexists.
  - rewrite lookup_alter_ne by done. by exists sg.
Qed.

Lemma host_wf_open_or_create address bytes h :
  host_wf h → host_wf (fst (open_or_create address bytes h)).
Proof.
  intros Hwf. unfold open_or_create.
  destruct (names h !! address) as [id|] eqn:E; [done|]. simpl.
  intros name id' Hname. simpl in *.
  destruct (decide (address = name)) as [->|Hne].
  - rewrite lookup_insert_eq in Hname. injection Hname as <-.
    rewrite lookup_insert_eq. by eexists.
  - rewrite lookup_insert_ne in Hname by done.
    destruct (Hwf name id' Hname) as [sg Hsg].
    destruct (decide (fresh (dom (segments h)) = id')) as [<-|Hne'].
    + rewrite lookup_insert_eq. by eexists.
    + rewrite lookup_insert_ne by done. by exists sg.
Qed.

Lemma host_wf_bind s address bytes h :
  host_wf h → host_wf (fst (fst (bind s address bytes h))).
Proof.
  intros Hwf. unfold bind.
  pose proof (host_wf_open_or_create address bytes h Hwf) as H1.
  destruct (open_or_create address bytes h) as [h1 id]. simpl in H1.
  assert (H3 : host_wf (find_or_construct_object id (address +:+ object_suffix)
                 (find_or_construct_node id (address +:+ node_suffix) h1))).
  { unfold find_or_construct_object. apply host_wf_alter.
    unfold find_or_construct_node. by apply host_wf_alter. }
  destruct (get_node _ _) as [n|]; [|done].
  destruct (incrementSourceRefCount n) as [e|[n' idx]]; [done|].
  by apply host_wf_set_node.
Qed.

Lemma host_wf_destroy s h : host_wf h → host_wf (fst (destroy s h)).
Proof.
  intros Hwf. unfold destroy. destruct (shmem_bound_ s); [|done].
  destruct (deref_node h s) as [[p n]|]; [|done].
  unfold decrementSourceRefCount. cbv zeta.
  destruct (_ && _); [|by apply host_wf_set_node].
  unfold post. destruct (deref_node _ s) as [[p' n']|]; simpl;
    apply host_wf_shm_remove; repeat apply host_wf_set_node; done.
Qed.

Lemma host_wf_empty : host_wf Host_empty.
Proof. intros name id H. simpl in H. by rewrite lookup_empty in H. Qed.

Lemma bind_attaches_consumer_once_witness :
  ∃ h' n',
    bind Source_new "raw" 0 Host_empty = (h', snd attached_raw, Ok tt) ∧
    get_node h' raw_node_ptr = Some n' ∧
    source_ref_count n' = 1.
Proof.
  destruct (bind_attaches_consumer_once Source_new "raw" 0 Host_empty)
    as (h' & id & Hb & Hname & _ & _ & Hn & _).
  - apply host_wf_empty.
  - change (0 <= 0 < 10). lia.
  - assert (Hid : id = 0%nat).
    { pose proof (f_equal (λ r, ptr_seg <$> node_ (snd (fst r))) Hb) as E.
      vm_compute in E. by injection E. }
    subst id. exists h', (set_source_ref_count 1 Node_new).
    split; [exact Hb|]. split; [exact Hn|]. reflexivity.
Defined.

(** ** How the operations compose *)

(** What a [bind] that finds a free slot returns, for use below. *)
Lemma bind_free_slot (s : Source) (address : string) (bytes : Z) (h : Host) :
  host_wf h →
  0 <= consumers_at h address < MAX_CONSUMERS →
  ∃ h' id,
    let p := {| ptr_seg := id; ptr_name := address +:+ node_suffix |} in
    let q := {| ptr_seg := id; ptr_name := address +:+ object_suffix |} in
    bind s address bytes h
      = (h', {| object_ := Some q; node_ := Some p; address_ := address;
                shmem_bound_ := true;
                this_index_ := consumers_at h address |}, Ok tt) ∧
    names h' !! address = Some id ∧
    (∀ id0, names h !! address = Some id0 → id = id0) ∧
    get_node h' p
      = Some (set_source_ref_count (consumers_at h address + 1)
                (default Node_new (node_at h address))) ∧
    get_object h' q = Some (default SharedCVMat_new (object_at h address)).
Proof.
  intros Hwf Hfree.
  destruct (open_or_create_spec address bytes h Hwf)
    as (h1 & id & sg & Hopen & Hname & Hsg & Hold & Hnew).
  destruct (find_or_construct_spec id (address +:+ node_suffix)
              (address +:+ object_suffix) h1 sg Hsg) as (Hnames & Hnode & Hobj).
  assert (Hat : seg_nodes sg !! (address +:+ node_suffix) = node_at h address ∧
                seg_objects sg !! (address +:+ object_suffix)
                  = object_at h address).
  { unfold node_at, object_at, get_node, get_object.
    destruct (names h !! address) as [id0|] eqn:E.
    - destruct (Hold id0 eq_refl) as [<- ->]. simpl. by rewrite Hsg.
    - destruct (Hnew eq_refl) as [_ ->]. simpl. by rewrite !lookup_empty. }
  destruct Hat as [Hnat Hoat]. rewrite Hnat in Hnode. rewrite Hoat in Hobj.
  set (n := default Node_new (node_at h address)) in *.
  assert (Hcount : source_ref_count n = consumers_at h address).
  { unfold consumers_at. subst n. by destruct (node_at h address). }
  assert (Hwrap : wrap (consumers_at h address + 1) = consumers_at h address + 1).
  { apply wrap_small. unfold MAX_CONSUMERS in Hfree.
    change (2 ^ SIZE_BITS) with 18446744073709551616. lia. }
  eexists _, id. cbv zeta.
  split; [|split; [|split; [|split]]].
  - unfold bind. rewrite Hopen. cbv zeta. rewrite Hnode.
    unfold incrementSourceRefCount. rewrite Hcount, Hwrap.
    destruct (Z.leb_spec MAX_CONSUMERS (consumers_at h address)); [lia|done].
  - by rewrite names_set_node, Hnames.
  - intros id0 E. by destruct (Hold id0 E).
  - by apply get_set_node with n.
  - by rewrite get_object_set_node.
Qed.

(** X2: a second consumer of an address joins the first one's segment.
    Two [bind]s on the same address, with slots free, end up with the same
    Node and the same payload slot; the second gets the next slot index, the
    count of consumers is two higher, and the payload slot is the one the
    first [bind] left, not a new one. *)
Theorem bind_twice_shares_the_node
    (sa sb : Source) (address : string) (bytes_a bytes_b : Z) (h : Host) :
  host_wf h →
  0 <= consumers_at h address →
  consumers_at h address + 1 < MAX_CONSUMERS →
  ∃ h1 sa' h2 sb',
    bind sa address bytes_a h = (h1, sa', Ok tt) ∧
    bind sb address bytes_b h1 = (h2, sb', Ok tt) ∧
    is_Some (node_ sa') ∧
    node_ sb' = node_ sa' ∧
    object_ sb' = object_ sa' ∧
    this_index_ sb' = this_index_ sa' + 1 ∧
    consumers_at h2 address = consumers_at h address + 2 ∧
    object_at h2 address = object_at h1 address.
Proof.
  intros Hwf H0 Hfree.
  destruct (bind_free_slot sa address bytes_a h Hwf)
    as (h1 & id & Hb1 & Hname1 & _ & Hn1 & Ho1); [lia|].
  cbv zeta in Hb1, Hn1, Ho1.
  assert (Hwf1 : host_wf h1).
  { pose proof (host_wf_bind sa address bytes_a h Hwf) as H. by rewrite Hb1 in H. }
  assert (Hat1 : node_at h1 address
                 = Some (set_source_ref_count (consumers_at h address + 1)
                           (default Node_new (node_at h address)))).
  { unfold node_at. by rewrite Hname1. }
  assert (Hc1 : consumers_at h1 address = consumers_at h address + 1).
  { unfold consumers_at at 1. by rewrite Hat1. }
  assert (Hoat1 : object_at h1 address
                  = Some (default SharedCVMat_new (object_at h address))).
  { unfold object_at at 1. by rewrite Hname1. }
  destruct (bind_free_slot sb address bytes_b h1 Hwf1)
    as (h2 & id' & Hb2 & Hname2 & Hsame & Hn2 & Ho2); [lia|].
  cbv zeta in Hb2, Hn2, Ho2.
  destruct (Hsame id Hname1). rewrite Hc1 in Hb2.
  eexists _, _, _, _. split; [exact Hb1|]. split; [exact Hb2|]. simpl.
  split; [by eexists|]. split; [done|]. split; [done|]. split; [done|].
  split.
  - unfold consumers_at at 1, node_at. rewrite Hname2, Hn2. simpl. lia.
  - unfold object_at at 1. rewrite Hname2, Ho2, Hoat1. done.
Qed.

Lemma bind_twice_shares_the_node_witness :
  ∃ h1 sa' h2 sb',
    bind Source_new "raw" 0 Host_empty = (h1, sa', Ok tt) ∧
    bind Source_new "raw" 64 h1 = (h2, sb', Ok tt) ∧
    node_ sb' = node_ sa' ∧
    this_index_ sb' = this_index_ sa' + 1 ∧
    consumers_at h2 "raw" = 2.
Proof.
  destruct (bind_twice_shares_the_node Source_new Source_new "raw" 0 64
              Host_empty host_wf_empty)
    as (h1 & sa' & h2 & sb' & Hb1 & Hb2 & _ & Hnode & _ & Hidx & Hcount & _).
  - change (0 <= 0). lia.
  - change (0 + 1 < 10). lia.
  - by exists h1, sa', h2, sb'.
Defined.

(** X3: a destructor that is not the last one out touches nothing but the
    count.  While other consumers remain, or while the sink is [BOUND], the
    destructor of a bound Source only decrements [source_ref_count]: the
    name stays linked, and the read count, the barriers and the sink state
    are as before (so it does not release a sink that waits). *)
Theorem destroy_keeps_segment_while_in_use
    (s : Source) (h : Host) (p : Ptr) (n : Node) :
  shmem_bound_ s = true →
  node_ s = Some p →
  get_node h p = Some n →
  wrap (source_ref_count n - 1) ≠ 0 ∨ sink_state n = BOUND →
  destroy s h
    = (set_node p (set_source_ref_count (wrap (source_ref_count n - 1)) n) h,
       Ok tt) ∧
  names (fst (destroy s h)) = names h.
Proof.
  intros Hb Hp Hn Huse.
  destruct (destroy_bound_spec s h p n Hb Hp Hn) as (Hd & _ & _).
  cbv zeta in Hd.
  assert (Hlast : (wrap (source_ref_count n - 1) =? 0)
                  && bool_decide (sink_state n ≠ BOUND) = false).
  { destruct Huse as [Hne|HB].
    - by destruct (Z.eqb_spec (wrap (source_ref_count n - 1)) 0).
    - rewrite bool_decide_eq_false_2; [apply andb_false_r|]. by intros []. }
  rewrite Hlast in Hd. by rewrite Hd.
Qed.

Lemma destroy_keeps_segment_while_in_use_witness :
  names (fst (destroy (snd bound_raw) (fst bound_raw))) !! "raw" = Some 0%nat.
Proof.
  destruct (destroy_keeps_segment_while_in_use (snd bound_raw) (fst bound_raw)
              raw_node_ptr
              (set_sink_state BOUND (set_source_ref_count 1 Node_new)))
    as [_ Hnames]; [reflexivity | reflexivity | reflexivity | by right |].
  rewrite Hnames. reflexivity.
Defined.

(** ** Waiting and being released *)

Lemma no_token_after_interference (env : Interference) (p : Ptr) (i : Z) :
  Forall (leaves_barrier_empty p i) env →
  ∀ h, no_token p i h → no_token p i (after_interference env h).
Proof.
  induction 1 as [|e env He _ IH]; intros h Hh; [done|].
  simpl. apply IH, He, Hh.
Qed.

Lemma wait_loop_skips_quiet (quiet : Interference) e rest (p : Ptr) (i : Z) :
  Forall (leaves_barrier_empty p i) quiet →
  ∀ h, no_token p i h →
    wait_loop (quiet ++ e :: rest) p i h
      = wait_loop rest p i (e (after_interference quiet h)).
Proof.
  induction 1 as [|q quiet Hq _ IH]; intros h (n & Hn & Hi); simpl;
    rewrite Hn, (timed_wait_no_token i n Hi); [done|].
  apply IH, Hq. by exists n.
Qed.

Lemma wait_loop_token (env : Interference) (p : Ptr) (i : Z) h n k :
  get_node h p = Some n →
  read_barriers n !! Z.to_nat i = Some (S k) →
  wait_loop env p i h
    = (set_node p
         (set_read_barriers (<[Z.to_nat i := k]> (read_barriers n)) n) h,
       Ok tt).
Proof.
  intros Hn Hk. destruct env; simpl; by rewrite Hn, (timed_wait_token i n k Hk).
Qed.

(** X4: a waiting consumer is released by the first token and by nothing
    else.  If the read barrier of its slot is empty and stays so during the
    timeouts [quiet], and the next step [e] of the other processes leaves a
    token there, [wait()] returns right after [e], having taken exactly that
    one token; what the other processes do later does not matter. *)
Theorem wait_returns_when_token_arrives
    (quiet : Interference) (e : Host → Host) (rest : Interference)
    (s : Source) (h : Host) (p : Ptr) (n : Node) (k : nat) :
  node_ s = Some p →
  no_token p (this_index_ s) h →
  Forall (leaves_barrier_empty p (this_index_ s)) quiet →
  get_node (e (after_interference quiet h)) p = Some n →
  read_barriers n !! Z.to_nat (this_index_ s) = Some (S k) →
  wait (quiet ++ e :: rest) s h
    = (set_node p
         (set_read_barriers
            (<[Z.to_nat (this_index_ s) := k]> (read_barriers n)) n)
         (e (after_interference quiet h)),
       Ok tt).
Proof.
  intros Hp Hempty Hquiet Hn Hk. unfold wait. rewrite Hp.
  rewrite wait_loop_skips_quiet by done.
  by apply wait_loop_token.
Qed.

Lemma wait_returns_when_token_arrives_witness :
  ∃ h',
    wait [id; id; token_arrives raw_node_ptr 0; id]
      (snd attached_raw) (fst attached_raw) = (h', Ok tt) ∧
    (read_barriers <$> get_node h' raw_node_ptr)
      = (read_barriers <$> get_node (fst attached_raw) raw_node_ptr).
Proof.
  eexists. split.
  - apply (wait_returns_when_token_arrives [id; id]
             (token_arrives raw_node_ptr 0) [id]
             (snd attached_raw) (fst attached_raw) raw_node_ptr
             (set_read_barriers (1%nat :: replicate 9 0%nat)
                (set_source_ref_count 1 Node_new)) 0%nat).
    + reflexivity.
    + eexists. split; [vm_compute; reflexivity | reflexivity].
    + repeat constructor; apply idle_leaves_barrier_empty.
    + vm_compute; reflexivity.
    + reflexivity.
  - vm_compute. reflexivity.
Defined.

(** X5: a frame consumer that is woken while the sink is still not bound
    fails in [connect()].  With [sink_state] not [BOUND] and a token on its
    read barrier (as when a sink posts the barriers on its way out),
    [Source<SharedCVMat>::connect()] takes the token and then throws the
    read-without-bound-sink error from [read()]. *)
Theorem connect_mat_woken_without_bound_sink_throws
    (env : Interference) (s : Source) (h : Host) (p q : Ptr)
    (n : Node) (o : SharedCVMat) (k : nat) :
  node_ s = Some p →
  get_node h p = Some n →
  object_ s = Some q →
  get_object h q = Some o →
  sink_state n ≠ BOUND →
  read_barriers n !! Z.to_nat (this_index_ s) = Some (S k) →
  connect_mat env s h
    = (set_node p
         (set_read_barriers
            (<[Z.to_nat (this_index_ s) := k]> (read_barriers n)) n) h,
       Throw (runtime_error read_error)).
Proof.
  intros Hp Hn Hq Ho Hst Hk. unfold connect_mat.
  rewrite (deref_node_Some h s p n) by done.
  destruct (decide (sink_state n ≠ BOUND)); [|done].
  unfold wait. rewrite Hp, (wait_loop_token env p _ h n k Hn Hk).
  f_equal. unfold materialize, read.
  rewrite Hq, get_object_set_node, Ho.
  rewrite (deref_node_Some _ s p
             (set_read_barriers
                (<[Z.to_nat (this_index_ s) := k]> (read_barriers n)) n));
    [|done|by apply get_set_node with n].
  simpl. by destruct (decide (sink_state n ≠ BOUND)).
Qed.

Lemma connect_mat_woken_without_bound_sink_throws_witness :
  snd (connect_mat []
         (snd ended_raw) (token_arrives raw_node_ptr 0 (fst ended_raw)))
    = Throw (runtime_error read_error).
Proof.
  rewrite (connect_mat_woken_without_bound_sink_throws []
             (snd ended_raw) (token_arrives raw_node_ptr 0 (fst ended_raw))
             raw_node_ptr {| ptr_seg := 0; ptr_name := "raw/shobj" |}
             (set_read_barriers (1%nat :: replicate 9 0%nat)
                (set_sink_state END (set_source_ref_count 1 Node_new)))
             SharedCVMat_new 0%nat);
    [reflexivity | reflexivity | vm_compute; reflexivity | reflexivity
    | vm_compute; reflexivity | discriminate | reflexivity ].
Defined.

(** X6: with the sink bound, a frame consumer's [connect()] builds its view
    without waiting and without touching the host: the view has the rows,
    columns and pixel type of the payload header, and its data pointer is
    the header's handle translated in the segment the address is linked
    to. *)
Theorem connect_mat_bound_builds_view
    (env : Interference) (s : Source) (h : Host) (p q : Ptr)
    (n : Node) (o : SharedCVMat) (id : nat) :
  node_ s = Some p →
  get_node h p = Some n →
  object_ s = Some q →
  get_object h q = Some o →
  sink_state n = BOUND →
  names h !! address_ s = Some id →
  connect_mat env s h
    = (h, Ok {| view_rows := mat_rows o; view_cols := mat_cols o;
                view_type := mat_type o;
                view_data := {| addr_seg := id; addr_off := mat_data o |} |}).
Proof.
  intros Hp Hn Hq Ho HB Hid. unfold connect_mat, materialize, read, open_only.
  rewrite (deref_node_Some h s p n) by done. rewrite Hq, Ho, Hid, HB.
  by destruct (decide (BOUND ≠ BOUND)).
Qed.

Lemma connect_mat_bound_builds_view_witness :
  connect_mat [] (snd bound_raw) (fst bound_raw)
    = (fst bound_raw,
       Ok {| view_rows := 0; view_cols := 0; view_type := 0;
             view_data := {| addr_seg := 0; addr_off := 0 |} |}).
Proof.
  apply (connect_mat_bound_builds_view [] (snd bound_raw) (fst bound_raw)
           raw_node_ptr {| ptr_seg := 0; ptr_name := "raw/shobj" |}
           (set_sink_state BOUND (set_source_ref_count 1 Node_new))
           SharedCVMat_new 0%nat); reflexivity.
Defined.

(** ** A cycle of posts *)

Lemma iter_post_node (j : nat) (n : Node) :
  source_read_count n = 0 →
  0 < source_ref_count n →
  Z.of_nat j < 2 ^ SIZE_BITS →
  source_read_count (Nat.iter j post_node n) = Z.of_nat j ∧
  source_ref_count (Nat.iter j post_node n) = source_ref_count n ∧
  write_barrier (Nat.iter j post_node n)
    = (if source_ref_count n <=? Z.of_nat j
       then S (write_barrier n) else write_barrier n).
Proof.
  intros Hr Hk. induction j as [|j IH]; intros Hj.
  - change (Nat.iter 0 post_node n) with n. change (Z.of_nat 0) with 0.
    rewrite Hr. split; [done|]. split; [done|].
    destruct (Z.leb_spec (source_ref_count n) 0); [lia|done].
  - destruct IH as (IHr & IHc & IHw); [lia|].
    change (Nat.iter (S j) post_node n)
      with (post_node (Nat.iter j post_node n)).
    destruct (post_node_spec (Nat.iter j post_node n)) as (Pr & Pc & _ & _ & Pw).
    cbv zeta in Pr, Pw.
    assert (Hw : wrap (Z.of_nat j + 1) = Z.of_nat (S j)).
    { rewrite wrap_small; lia. }
    rewrite IHr, Hw in Pr, Pw. rewrite IHc in Pc, Pw. rewrite IHw in Pw.
    split; [done|]. split; [done|]. rewrite Pw.
    destruct (Z.eqb_spec (Z.of_nat (S j)) (source_ref_count n));
      destruct (Z.leb_spec (source_ref_count n) (Z.of_nat j));
      destruct (Z.leb_spec (source_ref_count n) (Z.of_nat (S j)));
      try done; lia.
Qed.

Lemma get_node_post_all (sources : list Source) (p : Ptr) :
  Forall (λ s, node_ s = Some p) sources →
  ∀ h n, get_node h p = Some n →
    get_node (post_all sources h) p
      = Some (Nat.iter (length sources) post_node n).
Proof.
  induction 1 as [|s sources Hs _ IH]; intros h n Hn; [done|].
  unfold post_all. simpl. fold (post_all sources (fst (post s h))).
  rewrite (IH _ (post_node n)).
  - f_equal. symmetry.
    exact (Nat.iter_succ_r (length sources) Node post_node n).
  - unfold post. rewrite (deref_node_Some h s p n) by done. simpl.
    by apply get_set_node with n.
Qed.

(** X7: the producer is released once per cycle, by the last reader.  When
    every attached consumer calls [post()] once, starting from a read count
    of 0, the write barrier is untouched until the last of them has posted,
    and then holds exactly one token more. *)
Theorem write_barrier_posted_once_by_last_reader
    (sources : list Source) (h : Host) (p : Ptr) (n : Node) :
  Forall (λ s, node_ s = Some p) sources →
  get_node h p = Some n →
  source_read_count n = 0 →
  source_ref_count n = Z.of_nat (length sources) →
  sources ≠ [] →
  Z.of_nat (length sources) < 2 ^ SIZE_BITS →
  (∀ j nj, (j < length sources)%nat →
     get_node (post_all (take j sources) h) p = Some nj →
     write_barrier nj = write_barrier n) ∧
  ∃ n', get_node (post_all sources h) p = Some n' ∧
        write_barrier n' = S (write_barrier n) ∧
        source_read_count n' = source_ref_count n.
Proof.
  intros Hall Hn Hr Hk Hne Hsmall.
  assert (Hpos : 0 < source_ref_count n).
  { rewrite Hk. destruct sources; [done|]. simpl. lia. }
  split.
  - intros j nj Hj Hnj.
    rewrite (get_node_post_all (take j sources) p) with (n := n) in Hnj;
      [|by apply Forall_take|done].
    injection Hnj as <-. rewrite length_take, Nat.min_l by lia.
    destruct (iter_post_node j n Hr Hpos) as (_ & _ & ->); [lia|].
    destruct (Z.leb_spec (source_ref_count n) (Z.of_nat j)); [lia|done].
  - eexists. split; [by apply get_node_post_all|].
    destruct (iter_post_node (length sources) n Hr Hpos Hsmall)
      as (-> & _ & ->).
    split; [|done].
    destruct (Z.leb_spec (source_ref_count n) (Z.of_nat (length sources)));
      [done|lia].
Qed.

Lemma write_barrier_posted_once_by_last_reader_witness :
  (write_barrier <$>
     get_node (post_all (take 1 (snd two_attached_raw)) (fst two_attached_raw))
       raw_node_ptr) = Some 0%nat ∧
  (write_barrier <$>
     get_node (post_all (snd two_attached_raw) (fst two_attached_raw))
       raw_node_ptr) = Some 1%nat.
Proof.
  destruct (write_barrier_posted_once_by_last_reader
              (snd two_attached_raw) (fst two_attached_raw) raw_node_ptr
              (set_source_ref_count 2 Node_new))
    as (Hbefore & n' & Hafter & Hw & _).
  - repeat constructor.
  - vm_compute; reflexivity.
  - reflexivity.
  - reflexivity.
  - discriminate.
  - reflexivity.
  - split.
    + destruct (get_node (post_all (take 1 (snd two_attached_raw))
                            (fst two_attached_raw)) raw_node_ptr)
        as [nj|] eqn:E; [|vm_compute in E; discriminate].
      simpl. f_equal. apply (Hbefore 1%nat nj); [change (1 < 2)%nat; lia | exact E].
    + rewrite Hafter. simpl. by rewrite Hw.
Defined.

End ShmemFacts.

(** * Properties of the entry points *)

Module CliFacts.
Import Cli.

(** Split on every [match] and [if] of the goal and clean up. *)
Ltac split_cases :=
  repeat (case_match; simplify_eq/=; try done).

(** posifilt ends with code 0 or -1, whatever happens. *)
Lemma posifilt_main_codes (argv : posifilt_argv) (f : filter_behaviour) :
  posifilt_main argv f = Return 0 ∨ posifilt_main argv f = Return (-1).
Proof.
  unfold posifilt_main, posifilt_try, step, posifilt_run.
  destruct argv as [o|e]; [|by right].
  destruct o as [hp vs ty so si]; simpl.
  destruct ty as [type|]; simpl; split_cases; auto.
Qed.

(** posifilt ends with -1 on every error: a parser exception, an invalid
    TYPE, a missing TYPE, SOURCE or SINK, and any exception of the filter
    other than the SIGINT one during [run]. *)
Lemma posifilt_main_errors (argv : posifilt_argv) (f : filter_behaviour) :
  (∀ e, argv = PfParseThrows e → posifilt_main argv f = Return (-1)) ∧
  (∀ o type, argv = PfParsed o → pf_type o = Some type →
     posifilt_type_hash !! type = None →
     posifilt_main argv f = Return (-1)) ∧
  (∀ o, argv = PfParsed o → pf_help o = false → pf_version o = false →
     pf_type o = None ∨ pf_source o = None ∨ pf_sink o = None →
     posifilt_main argv f = Return (-1)) ∧
  (posifilt_main argv f = Return 0 →
     ∃ o, argv = PfParsed o ∧
       (pf_help o = true ∨ pf_version o = true ∨
        (flt_reparse f = None ∧ flt_configure f = None ∧
         posifilt_run f = None))).
Proof.
  split; [|split; [|split]].
  - by intros e ->.
  - intros o type -> Hty Hh. unfold posifilt_main, posifilt_try, hash_at.
    by rewrite Hty, Hh.
  - intros o -> Hhelp Hver Hmiss.
    unfold posifilt_main, posifilt_try, hash_at, step.
    rewrite Hhelp, Hver.
    destruct (pf_type o) as [type|] eqn:Ety; simpl.
    + destruct Hmiss as [?|[->| ->]]; [done| |]; simpl;
        rewrite ?orb_true_r; simpl; split_cases.
    + done.
  - unfold posifilt_main, posifilt_try, step.
    destruct argv as [o|e]; [|done]. intros H. exists o. split; [done|].
    destruct (pf_help o); [by left|]. destruct (pf_version o); [by right; left|].
    right; right.
    destruct (flt_reparse f); [|destruct (flt_configure f);
      [|destruct (posifilt_run f); [|done]]];
      exfalso; revert H; split_cases.
Qed.

(** frameserver ends with -1 on an invalid TYPE and on a missing TYPE or
    SINK, and with 0 when the camera runs to its end. *)
Lemma frameserve_main_codes (o : frameserve_options) (cam : camera_behaviour) :
  fs_help o = false → fs_version o = false →
  (fs_type o = None ∨ fs_sink o = None →
     frameserve_main (FsParsed o) cam = Return (-1)) ∧
  (∀ type, fs_type o = Some type → frameserve_type_hash !! type = None →
     frameserve_main (FsParsed o) cam = Return (-1)) ∧
  (frameserve_main (FsParsed o) cam = Return 0 →
     cam_construct cam = None ∧ cam_configure cam = None ∧ cam_run cam = None).
Proof.
  intros Hhelp Hver. unfold frameserve_main, frameserve_try, hash_at.
  rewrite Hhelp, Hver. split; [|split].
  - intros [->| ->]; simpl; [done|].
    by destruct (fs_type o).
  - intros type -> Hh. simpl.
    destruct (negb (bool_decide (is_Some (fs_sink o)))); [done|].
    destruct (_ || _); [done|]. destruct (_ && _); [done|].
    by rewrite Hh.
  - split_cases.
Qed.

(** C7: frameserver does not end with -1 on every error.  An option the
    parser rejects makes it throw inside the [try] block, and the handler
    for [std::exception] returns 1; an exception of the camera's
    [configure] is not caught at all. *)
Theorem frameserve_parse_error_returns_1 :
  frameserve_main frameserve_unknown_option camera_ok = Return 1 ∧
  frameserve_main frameserve_wcam_raw camera_ok = Return 0 ∧
  frameserve_main frameserve_wcam_raw camera_bad_config
    = Terminate std_runtime_error.
Proof. repeat split. Qed.

(** ** More on posifilt *)

Lemma hash_accepts (type_hash : gmap string ascii) (type : string) :
  (∀ c, type_hash !! type = Some c →
        c = "a"%char ∨ c = "b"%char ∨ c = "c"%char) →
  bool_decide (hash_at type_hash type = "a"%char)
  || bool_decide (hash_at type_hash type = "b"%char)
  || bool_decide (hash_at type_hash type = "c"%char)
  = bool_decide (is_Some (type_hash !! type)).
Proof.
  intros Hval. unfold hash_at. destruct (type_hash !! type) as [c|] eqn:E.
  - rewrite (bool_decide_eq_true_2 (is_Some (Some c))) by by eexists.
    destruct (Hval c eq_refl) as [->|[->| ->]]; done.
  - done.
Qed.

Lemma posifilt_hash_values type c :
  posifilt_type_hash !! type = Some c →
  c = "a"%char ∨ c = "b"%char ∨ c = "c"%char.
Proof.
  unfold posifilt_type_hash. intros H.
  apply lookup_insert_Some in H as [[_ <-]|[_ H]]; [auto|].
  apply lookup_insert_Some in H as [[_ <-]|[_ H]]; [auto|].
  apply lookup_insert_Some in H as [[_ <-]|[_ H]]; [auto|].
  by rewrite lookup_empty in H.
Qed.

Lemma frameserve_hash_values type c :
  frameserve_type_hash !! type = Some c →
  c = "a"%char ∨ c = "b"%char ∨ c = "c"%char.
Proof.
  unfold frameserve_type_hash. intros H.
  apply lookup_insert_Some in H as [[_ <-]|[_ H]]; [auto|].
  apply lookup_insert_Some in H as [[_ <-]|[_ H]]; [auto|].
  apply lookup_insert_Some in H as [[_ <-]|[_ H]]; [auto|].
  by rewrite lookup_empty in H.
Qed.

(** With three tokens or more to erase, [main] in full ends as the [main]
    above does. *)
Lemma posifilt_main_collected_enough
    (argv : posifilt_argv) (collected : nat) (f : filter_behaviour) :
  (REQ_POSITIONAL_ARGS ≤ collected)%nat →
  posifilt_main_collected argv collected f = Ends (posifilt_main argv f).
Proof.
  intros Hc.
  unfold posifilt_main_collected, posifilt_try_collected,
    posifilt_main, posifilt_try, step.
  destruct (Nat.ltb_spec collected REQ_POSITIONAL_ARGS) as [Hlt|_]; [lia|].
  destruct argv as [o|e]; [|done].
  destruct (pf_type o) as [type|]; split_cases.
Qed.

(** X8: SIGINT during a wait is a clean shutdown for posifilt, any other
    failure of the processing loop is not, and both only if the command
    line leaves three tokens to erase.  With TYPE, SOURCE and SINK given
    and the filter set up, [main] erases the first three of the tokens it
    collected for the filter; with fewer than three collected (TYPE, SOURCE
    or SINK given by name) the erase runs past the end.  Otherwise an
    interprocess exception out of [run] makes [main] return 0 if its error
    code is 1 and -1 if it is anything else, and every other kind of
    exception out of [run] gives -1. *)
Theorem posifilt_sigint_during_run_exits_0
    (o : posifilt_options) (f : filter_behaviour) (type : string) (e : exn)
    (collected : nat) :
  pf_help o = false → pf_version o = false →
  pf_type o = Some type → is_Some (posifilt_type_hash !! type) →
  is_Some (pf_source o) → is_Some (pf_sink o) →
  flt_construct f = None → flt_append_options f = None →
  flt_reparse f = None → flt_configure f = None →
  flt_run f = Some e →
  posifilt_main_collected (PfParsed o) collected f
    = (if (collected <? REQ_POSITIONAL_ARGS)%nat then ErasesPastEnd
       else Ends (Return (if bool_decide (e = interprocess_exception 1)
                          then 0 else -1))).
Proof.
  intros Hh Hv Hty Hok Hso Hsi Hc Ha Hr Hcf Hrun.
  unfold posifilt_main_collected, posifilt_try_collected, posifilt_run, step.
  rewrite Hh, Hv, Hty, Hc, Ha, Hr, Hcf, Hrun.
  rewrite (hash_accepts _ _ (posifilt_hash_values type)).
  rewrite !bool_decide_eq_true_2 by (done || by eexists). simpl.
  destruct (collected <? REQ_POSITIONAL_ARGS)%nat; [done|].
  destruct e as [| | | |code|]; try done.
  destruct (Z.eqb_spec code 1) as [->|Hne]; [done|].
  rewrite bool_decide_eq_false_2; [done|]. by intros [= ->].
Qed.

Lemma posifilt_sigint_during_run_exits_0_witness :
  posifilt_main_collected (PfParsed posifilt_kalman) 3
    {| flt_construct := None; flt_append_options := None;
       flt_reparse := None; flt_configure := None;
       flt_run := Some (interprocess_exception 1) |} = Ends (Return 0) ∧
  posifilt_main_collected (PfParsed posifilt_kalman) 3
    {| flt_construct := None; flt_append_options := None;
       flt_reparse := None; flt_configure := None;
       flt_run := Some (interprocess_exception 2) |} = Ends (Return (-1)) ∧
  posifilt_main_collected (PfParsed posifilt_kalman) 0
    {| flt_construct := None; flt_append_options := None;
       flt_reparse := None; flt_configure := None;
       flt_run := Some (interprocess_exception 1) |} = ErasesPastEnd.
Proof.
  split; [|split].
  - apply (posifilt_sigint_during_run_exits_0 posifilt_kalman _ "kalman"
             (interprocess_exception 1) 3); try reflexivity; by eexists.
  - apply (posifilt_sigint_during_run_exits_0 posifilt_kalman _ "kalman"
             (interprocess_exception 2) 3); try reflexivity; by eexists.
  - apply (posifilt_sigint_during_run_exits_0 posifilt_kalman _ "kalman"
             (interprocess_exception 1) 0); try reflexivity; by eexists.
Defined.

(** X9: posifilt looks at TYPE before it looks at [--help].  With [--help]
    given, [main] returns 0 exactly when no TYPE was given, or the TYPE is a
    known one and the filter for it could be constructed and asked for its
    options; with an unknown TYPE it returns -1 although help was asked
    for. *)
Theorem posifilt_help_exits_0_iff_type_accepted
    (o : posifilt_options) (f : filter_behaviour) :
  pf_help o = true →
  (posifilt_main (PfParsed o) f = Return 0 ↔
     match pf_type o with
     | None => True
     | Some type =>
         is_Some (posifilt_type_hash !! type) ∧
         flt_construct f = None ∧ flt_append_options f = None
     end) ∧
  (posifilt_main (PfParsed o) f ≠ Return 0 →
   posifilt_main (PfParsed o) f = Return (-1)).
Proof.
  intros Hh. split.
  - unfold posifilt_main, posifilt_try, step. rewrite Hh.
    destruct (pf_type o) as [type|]; [|done].
    rewrite (hash_accepts _ _ (posifilt_hash_values type)).
    destruct (decide (is_Some (posifilt_type_hash !! type))) as [Hs|Hn].
    + rewrite bool_decide_eq_true_2 by done.
      destruct (flt_construct f), (flt_append_options f); simpl;
        split; try done; intros (_ & ? & ?); done.
    + rewrite bool_decide_eq_false_2 by done. split; [done|].
      by intros (? & _).
  - intros Hne. by destruct (posifilt_main_codes (PfParsed o) f).
Qed.

Lemma posifilt_help_exits_0_iff_type_accepted_witness :
  posifilt_main (PfParsed posifilt_help_typo) filter_ok = Return (-1).
Proof.
  destruct (posifilt_help_exits_0_iff_type_accepted posifilt_help_typo
              filter_ok eq_refl) as [Hiff Hminus].
  apply Hminus. intros H. apply Hiff in H as ([c Hc] & _).
  vm_compute in Hc. discriminate.
Defined.

(** ** More on frameserver *)

Lemma frameserve_try_parsed (o : frameserve_options) :
  fs_help o = false → fs_version o = false →
  ∀ type, frameserve_try (FsParsed o) = inr type ↔
    fs_type o = Some type ∧ is_Some (fs_sink o) ∧
    fs_config_file o = fs_config_key o ∧
    (type = "file" → fs_video_file o = true).
Proof.
  intros Hh Hv type. unfold frameserve_try. rewrite Hh, Hv.
  destruct (fs_type o) as [ty|]; simpl;
    [|split; [done|]; by intros (? & _)].
  destruct (fs_sink o) as [sink|]; simpl;
    [|split; [done|]; by intros (_ & [? ?] & _)].
  destruct (fs_config_file o), (fs_config_key o); simpl;
    try (split; [done|]; by intros (_ & _ & ? & _)).
  all: destruct (decide (ty = "file")) as [->|Hnf];
    [rewrite (bool_decide_eq_true_2 ("file" = "file")) by done
    |rewrite (bool_decide_eq_false_2 (ty = "file")) by done]; simpl.
  all: try (destruct (fs_video_file o); simpl).
  all: split; try done.
  all: try (intros [= <-]; repeat split; by eauto).
  all: try (intros ([= <-] & _ & _ & Hf); try done; by specialize (Hf eq_refl)).
Qed.

Lemma frameserve_try_rejects (o : frameserve_options) (code : Z) :
  fs_help o = false → fs_version o = false →
  frameserve_try (FsParsed o) = inl code → code = -1.
Proof.
  intros Hh Hv. unfold frameserve_try. rewrite Hh, Hv.
  split_cases; by intros [= <-].
Qed.

(** X10: when frameserver exits with 0.  For a command line the parser
    accepts, [main] returns 0 exactly when help or the version was asked
    for, or else TYPE and SINK are given, a configuration file and key come
    together or not at all, TYPE [file] comes with a video file, TYPE is one
    of the three known ones, and the camera is constructed, configured and
    run without an exception. *)
Theorem frameserve_exits_0_iff
    (o : frameserve_options) (cam : camera_behaviour) :
  frameserve_main (FsParsed o) cam = Return 0 ↔
    fs_help o = true ∨ fs_version o = true ∨
    ((∃ type, fs_type o = Some type ∧
              is_Some (frameserve_type_hash !! type) ∧
              (type = "file" → fs_video_file o = true)) ∧
     is_Some (fs_sink o) ∧
     fs_config_file o = fs_config_key o ∧
     cam_construct cam = None ∧ cam_configure cam = None ∧
     cam_run cam = None).
Proof.
  destruct (fs_help o) eqn:Hh.
  { unfold frameserve_main, frameserve_try. rewrite Hh. split; auto. }
  destruct (fs_version o) eqn:Hv.
  { unfold frameserve_main, frameserve_try. rewrite Hh, Hv. split; auto. }
  pose proof (frameserve_try_parsed o Hh Hv) as Hin.
  pose proof (λ code, frameserve_try_rejects o code Hh Hv) as Hout.
  unfold frameserve_main.
  destruct (frameserve_try (FsParsed o)) as [code|type].
  - rewrite (Hout code eq_refl). split; [done|].
    intros [?|[?|((type & Hty & _ & Hfile) & Hsi & Hcfg & _)]]; try done.
    by pose proof (proj2 (Hin type) (conj Hty (conj Hsi (conj Hcfg Hfile)))).
  - destruct (proj1 (Hin type) eq_refl) as (Hty & Hsi & Hcfg & Hfile).
    rewrite (hash_accepts _ _ (frameserve_hash_values type)).
    destruct (decide (is_Some (frameserve_type_hash !! type))) as [Hs|Hn].
    + rewrite bool_decide_eq_true_2 by done.
      destruct (cam_construct cam), (cam_configure cam), (cam_run cam);
        split; try done;
        try (intros [?|[?|(_ & _ & _ & ? & ? & ?)]]; done).
      intros _. right; right. split; [by exists type|]. done.
    + rewrite bool_decide_eq_false_2 by done. split; [done|].
      intros [?|[?|((t & Ht & ? & _) & _)]]; try done.
      rewrite Hty in Ht. by injection Ht as <-.
Qed.

(** X11: frameserver goes on after an exception it does not know.  When the
    parser throws something that is not a [std::exception], the handler
    prints a message and does not return: [main] then behaves exactly as
    for an accepted command line with the TYPE bound so far, and with no
    TYPE bound it ends with -1 as for an invalid TYPE. *)
Theorem frameserve_unknown_exception_falls_through
    (e : exn) (type : string) (o : frameserve_options) (cam : camera_behaviour) :
  is_std_exception e = false →
  fs_help o = false → fs_version o = false →
  fs_type o = Some type → is_Some (fs_sink o) →
  fs_config_file o = fs_config_key o →
  (type = "file" → fs_video_file o = true) →
  frameserve_main (FsParseThrows e type) cam = frameserve_main (FsParsed o) cam ∧
  frameserve_main (FsParseThrows e "") cam = Return (-1).
Proof.
  intros He Hh Hv Hty [sink Hsi] Hcfg Hfile.
  unfold frameserve_main, frameserve_try.
  rewrite He, Hh, Hv, Hty, Hsi, Hcfg. simpl. split; [|done].
  assert (Hx : fs_config_key o && negb (fs_config_key o)
               || negb (fs_config_key o) && fs_config_key o = false)
    by by destruct (fs_config_key o).
  rewrite Hx.
  destruct (decide (type = "file")) as [->|Hnf].
  - rewrite (Hfile eq_refl). by rewrite andb_false_r.
  - by rewrite (bool_decide_eq_false_2 (type = "file")) by done.
Qed.

Lemma frameserve_unknown_exception_falls_through_witness :
  frameserve_main (FsParseThrows non_std "wcam") camera_ok = Return 0.
Proof.
  destruct (frameserve_unknown_exception_falls_through non_std "wcam"
              {| fs_help := false; fs_version := false;
                 fs_type := Some "wcam"; fs_sink := Some "raw";
                 fs_config_file := false; fs_config_key := false;
                 fs_video_file := false |} camera_ok)
    as [Hsame _].
  - reflexivity.
  - reflexivity.
  - reflexivity.
  - reflexivity.
  - by eexists.
  - reflexivity.
  - discriminate.
  - rewrite Hsame. reflexivity.
Defined.

(** ** The serving loops *)

Lemma serve_loop_calm (calm : list turn) :
  Forall (λ t, sigint t = false ∧ end_of_stream t = false) calm →
  ∀ more served,
    serve_loop (calm ++ more) false false served
      = serve_loop more false false (served + length calm).
Proof.
  induction 1 as [|t calm [Hs He] _ IH]; intros more served; simpl.
  - by rewrite Nat.add_0_r.
  - rewrite Hs, He, IH. f_equal. lia.
Qed.

(** X12: the serving loop of frameserver and of posifilt ends with the
    first turn that brings SIGINT or the end of the stream, and serves
    nothing after it.  Entered with both flags down, it runs through the
    turns without either, serves the first turn with one of them, and stops
    there whatever turns would follow; if no turn brings either, it is
    still running. *)
Theorem serve_loop_stops_at_first_signal
    (calm : list turn) (t : turn) (rest : list turn) :
  Forall (λ t, sigint t = false ∧ end_of_stream t = false) calm →
  sigint t || end_of_stream t = true →
  serve_loop (calm ++ t :: rest) false false 0
    = Some (sigint t, end_of_stream t, S (length calm)) ∧
  serve_loop calm false false 0 = None.
Proof.
  intros Hcalm Ht. split.
  - rewrite (serve_loop_calm calm Hcalm). simpl.
    destruct rest; simpl; by rewrite Ht.
  - rewrite <- (app_nil_r calm) at 1. by rewrite (serve_loop_calm calm Hcalm).
Qed.

Lemma serve_loop_stops_at_first_signal_witness :
  serve_loop
    [ {| sigint := false; end_of_stream := false |};
      {| sigint := false; end_of_stream := false |};
      {| sigint := false; end_of_stream := true |};
      {| sigint := false; end_of_stream := false |} ] false false 0
  = Some (false, true, 3%nat).
Proof.
  apply (serve_loop_stops_at_first_signal
           [ {| sigint := false; end_of_stream := false |};
             {| sigint := false; end_of_stream := false |} ]
           {| sigint := false; end_of_stream := true |}
           [ {| sigint := false; end_of_stream := false |} ]).
  - repeat constructor.
  - reflexivity.
Defined.

End CliFacts.

(** * Properties of the blob sifting *)

Module HSVFacts.
Import HSV.

Section Sift.

Variable R : Type.
Variable zero : R.
Variable ltb : R → R → bool.
Variable div : R → R → R.

(** The comparison is a strict weak order, as [<] is on the finite
    [double]s. *)
Hypothesis ltb_irrefl : ∀ a, ltb a a = false.
Hypothesis ltb_trans :
  ∀ a b c, ltb a b = true → ltb b c = true → ltb a c = true.
Hypothesis ltb_cotrans :
  ∀ a b c, ltb a b = true → ltb a c = true ∨ ltb c b = true.

Lemma sift_loop_top_level contours hierarchy index visited :
  top_level hierarchy index visited →
  ∀ fuel ms d,
    Forall2 (λ i m, contours !! i = Some m) visited ms →
    (length visited ≤ fuel)%nat →
    sift_loop ltb div fuel contours hierarchy index d = Some (sift_list ltb div ms d).
Proof.
  induction 1 as [index Hneg|index hv rest Hpos Hhv _ IH];
    intros fuel ms d Hms Hfuel.
  - inversion Hms; subst. destruct fuel; simpl;
      by destruct (Z.ltb_spec index 0); [|lia..].
  - inversion Hms as [|i m visited' ms' Hm Hms']; subst.
    destruct fuel as [|fuel]; [simpl in Hfuel; lia|]. simpl.
    destruct (Z.ltb_spec index 0); [lia|].
    rewrite Hm, Hhv. apply IH; [done|]. simpl in Hfuel. lia.
Qed.

Lemma top_level_moments (contours : list (Moments R)) hierarchy index visited :
  length contours = length hierarchy →
  top_level hierarchy index visited →
  ∃ ms, Forall2 (λ i m, contours !! i = Some m) visited ms.
Proof.
  intros Hlen. induction 1 as [|index hv rest _ Hhv _ [ms IH]].
  - by exists [].
  - destruct (lookup_lt_is_Some_2 contours (Z.to_nat index)) as [m Hm].
    { rewrite Hlen. by eapply lookup_lt_Some. }
    exists (m :: ms). by constructor.
Qed.

Lemma found_consider d0 seen d m :
  ltb (min_object_area d0) zero = false →
  found zero ltb div d0 seen d →
  found zero ltb div d0 (seen ++ [m]) (consider ltb div m d).
Proof.
  intros Hmin (Hlo & Hhi & Hbest). unfold consider. rewrite Hlo, Hhi.
  destruct (ltb (min_object_area d0) (m00 m)) eqn:E1; simpl;
    [destruct (ltb (m00 m) (max_object_area d0)) eqn:E2; simpl;
     [destruct (ltb (object_area d) (m00 m)) eqn:E3; simpl|]|].
  - (* the new contour is taken *)
    split; [done|]. split; [done|].
    exists m. split; [set_solver|]. split; [done|]. split; [done|].
    split; [done|]. intros m' Hin Hb.
    apply elem_of_app in Hin as [Hin|Hin].
    + destruct (position_valid (object_position d)).
      * destruct Hbest as (mb & _ & _ & Harea & _ & Hmax).
        destruct (ltb (m00 m) (m00 m')) eqn:E; [|done].
        rewrite Harea in E3.
        pose proof (Hmax m' Hin Hb) as Hle.
        by rewrite (ltb_trans _ _ _ E3 E) in Hle.
      * destruct Hbest as (_ & Hnone). by destruct (Hnone m' Hin).
    + apply list_elem_of_singleton in Hin as ->. apply ltb_irrefl.
  - (* within the bounds but not larger than the best so far *)
    split; [done|]. split; [done|].
    destruct (position_valid (object_position d)).
    + destruct Hbest as (mb & Hin & Hb & Harea & Hpos & Hmax).
      exists mb. split; [set_solver|]. split; [done|]. split; [done|].
      split; [done|]. intros m' Hin' Hb'.
      apply elem_of_app in Hin' as [Hin'|Hin']; [by apply Hmax|].
      apply list_elem_of_singleton in Hin' as ->. by rewrite <- Harea.
    + destruct Hbest as (Harea & Hnone). rewrite Harea in E3.
      destruct (ltb_cotrans _ _ zero E1); congruence.
  - (* not below the upper bound *)
    split; [done|]. split; [done|].
    destruct (position_valid (object_position d)).
    + destruct Hbest as (mb & Hin & Hb & Harea & Hpos & Hmax).
      exists mb. split; [set_solver|]. split; [done|]. split; [done|].
      split; [done|]. intros m' Hin' Hb'.
      apply elem_of_app in Hin' as [Hin'|Hin']; [by apply Hmax|].
      apply list_elem_of_singleton in Hin' as ->.
      destruct Hb' as [_ Hb']. congruence.
    + destruct Hbest as (Harea & Hnone). split; [done|].
      intros m' Hin' Hb'.
      apply elem_of_app in Hin' as [Hin'|Hin']; [by apply (Hnone m')|].
      apply list_elem_of_singleton in Hin' as ->.
      destruct Hb' as [_ Hb']. congruence.
  - (* not above the lower bound *)
    split; [done|]. split; [done|].
    destruct (position_valid (object_position d)).
    + destruct Hbest as (mb & Hin & Hb & Harea & Hpos & Hmax).
      exists mb. split; [set_solver|]. split; [done|]. split; [done|].
      split; [done|]. intros m' Hin' Hb'.
      apply elem_of_app in Hin' as [Hin'|Hin']; [by apply Hmax|].
      apply list_elem_of_singleton in Hin' as ->.
      destruct Hb' as [Hb' _]. congruence.
    + destruct Hbest as (Harea & Hnone). split; [done|].
      intros m' Hin' Hb'.
      apply elem_of_app in Hin' as [Hin'|Hin']; [by apply (Hnone m')|].
      apply list_elem_of_singleton in Hin' as ->.
      destruct Hb' as [Hb' _]. congruence.
Qed.

Lemma found_sift_list d0 ms :
  ltb (min_object_area d0) zero = false →
  ∀ seen d, found zero ltb div d0 seen d → found zero ltb div d0 (seen ++ ms) (sift_list ltb div ms d).
Proof.
  intros Hmin. induction ms as [|m ms IH]; intros seen d Hf; simpl.
  - by rewrite app_nil_r.
  - rewrite (assoc_L (++) seen [m] ms : seen ++ m :: ms = (seen ++ [m]) ++ ms).
    apply IH. by apply found_consider.
Qed.

(** C9, as the code has it: for a detector whose lower bound is not
    negative, [detectPosition] returns a position that is valid exactly when
    some top-level contour (one the loop reaches from contour 0 through the
    next-contour links) has its area strictly between [min_object_area] and
    [max_object_area]; the position is then the centroid [(m10/m00,
    m01/m00)] of such a contour that no other one of them exceeds in
    area. *)
Theorem detectPosition_valid_iff_top_level_contour_in_bounds
    (fuel : nat) (contours : list (Moments R)) (hierarchy : list Vec4i)
    (visited : list nat) (d : HSVDetector R) :
  ltb (min_object_area d) zero = false →
  length contours = length hierarchy →
  sifted hierarchy visited →
  (length visited ≤ fuel)%nat →
  ∃ d',
    detectPosition zero ltb div fuel contours hierarchy d
      = Some (d', object_position d') ∧
    (position_valid (object_position d') = true ↔
       ∃ i m, i ∈ visited ∧ contours !! i = Some m ∧ in_bounds ltb d m) ∧
    (position_valid (object_position d') = true →
       ∃ i m, i ∈ visited ∧ contours !! i = Some m ∧ in_bounds ltb d m ∧
         position (object_position d') = centroid div m ∧
         ∀ j mj, j ∈ visited → contours !! j = Some mj → in_bounds ltb d mj →
           ltb (m00 m) (m00 mj) = false).
Proof.
  intros Hmin Hlen Hsift Hfuel.
  set (d0 := {| min_object_area := min_object_area d;
                max_object_area := max_object_area d;
                object_area := zero;
                object_position :=
                  {| position_valid := false;
                     position := position (object_position d) |} |}).
  assert (Hms : ∃ ms, Forall2 (λ i m, contours !! i = Some m) visited ms ∧
                      siftBlobs zero ltb div fuel contours hierarchy d
                        = Some (sift_list ltb div ms d0)).
  { unfold siftBlobs. fold d0. destruct hierarchy as [|hv hierarchy'].
    - simpl in Hsift. subst visited. exists []. by split; [constructor|].
    - simpl in Hsift.
      destruct (top_level_moments contours _ _ _ Hlen Hsift) as [ms Hms].
      exists ms. split; [done|].
      change (0 <? length (hv :: hierarchy'))%nat with true. cbv iota.
      by apply sift_loop_top_level with visited. }
  destruct Hms as (ms & Hms & Hrun).
  assert (Hfound : found zero ltb div d ([] ++ ms) (sift_list ltb div ms d0)).
  { apply found_sift_list; [done|]. split; [done|]. split; [done|].
    simpl. split; [done|]. intros m' Hin. by apply elem_of_nil in Hin. }
  simpl in Hfound.
  assert (Hseen : ∀ m, m ∈ ms ↔ ∃ i, i ∈ visited ∧ contours !! i = Some m).
  { clear -Hms. induction Hms as [|i m visited ms Hm _ IH]; intros m0.
    - split; [intros H; by apply elem_of_nil in H|].
      intros (i & H & _). by apply elem_of_nil in H.
    - rewrite elem_of_cons, IH. split.
      + intros [->|(j & Hj & Hmj)]; [exists i|exists j];
          (split; [apply elem_of_cons; auto | done]).
      + intros (j & Hj & Hmj). apply elem_of_cons in Hj as [->|Hj].
        * left. congruence.
        * right. by exists j. }
  exists (sift_list ltb div ms d0). unfold detectPosition. rewrite Hrun.
  split; [done|].
  destruct Hfound as (_ & _ & Hbest).
  destruct (position_valid (object_position (sift_list ltb div ms d0))).
  - destruct Hbest as (m & Hin & Hb & _ & Hpos & Hmax).
    apply Hseen in Hin as (i & Hi & Hm).
    split; [split; [|done]; intros _; by exists i, m|].
    intros _. exists i, m. repeat (split; [done|]).
    intros j mj Hj Hmj Hbj. apply Hmax; [|done]. apply Hseen. by exists j.
  - destruct Hbest as (_ & Hnone).
    split; [|done]. split; [done|].
    intros (i & m & Hi & Hm & Hb). destruct (Hnone m); [|done].
    apply Hseen. by exists i.
Qed.

End Sift.

Lemma detectPosition_valid_iff_top_level_contour_in_bounds_witness :
  ∃ d',
    detectPosition 0 Z.ltb Z.div 2 ring_contours ring_hierarchy
      detector_100_1000 = Some (d', object_position d') ∧
    position_valid (object_position d') = true ∧
    position (object_position d') = {| x := 50; y := 40 |}.
Proof.
  destruct (detectPosition_valid_iff_top_level_contour_in_bounds
              Z 0 Z.ltb Z.div Z.ltb_irrefl
              (λ a b c Hab Hbc,
                 proj2 (Z.ltb_lt a c)
                   (Z.lt_trans a b c (proj1 (Z.ltb_lt a b) Hab)
                      (proj1 (Z.ltb_lt b c) Hbc)))
              (λ a b c Hab,
                 match Z_lt_le_dec a c with
                 | left Hac => or_introl (proj2 (Z.ltb_lt a c) Hac)
                 | right Hca =>
                     or_intror
                       (proj2 (Z.ltb_lt c b)
                          (Z.le_lt_trans c a b Hca (proj1 (Z.ltb_lt a b) Hab)))
                 end)
              2%nat ring_contours ring_hierarchy [0%nat] detector_100_1000)
    as (d' & Hrun & Hvalid & Hbest).
  - reflexivity.
  - reflexivity.
  - simpl. apply (top_level_next _ 0 {| v0 := -1; v1 := -1; v2 := 1; v3 := -1 |});
      [lia | reflexivity | apply top_level_end; simpl; lia].
  - simpl. lia.
  - exists d'. split; [exact Hrun|].
    assert (Hd : d' = {| min_object_area := 100; max_object_area := 1000;
                         object_area := 900;
                         object_position :=
                           {| position_valid := true;
                              position := {| x := 50; y := 40 |} |} |}).
    { vm_compute in Hrun. by injection Hrun. }
    subst d'. split; reflexivity.
Defined.

(** The hole of the ring is a contour [findContours] returned and its area
    lies within the bounds, yet the position is not valid: the loop only
    visits the outer boundary, whose area is too large. *)
Lemma ring_hole_in_bounds_but_position_invalid :
  (∃ m, ring_contours !! 1%nat = Some m ∧
        in_bounds Z.ltb detector_100_500 m) ∧
  (position_valid ∘ snd) <$>
    detectPosition 0 Z.ltb Z.div 2 ring_contours ring_hierarchy
      detector_100_500 = Some false.
Proof.
  split.
  - eexists. split; [reflexivity|]. split; reflexivity.
  - reflexivity.
Qed.

(** ** What a detection leaves alone *)

Section Stale.

Variable R : Type.
Variable zero : R.
Variable ltb : R → R → bool.
Variable div : R → R → R.

Lemma consider_keeps (m : Moments R) (d : HSVDetector R) :
  min_object_area (consider ltb div m d) = min_object_area d ∧
  max_object_area (consider ltb div m d) = max_object_area d ∧
  (position_valid (object_position (consider ltb div m d)) = false →
   consider ltb div m d = d).
Proof. unfold consider. by destruct (_ && _). Qed.

Lemma sift_loop_keeps contours hierarchy :
  ∀ fuel index (d d' : HSVDetector R),
    sift_loop ltb div fuel contours hierarchy index d = Some d' →
    min_object_area d' = min_object_area d ∧
    max_object_area d' = max_object_area d ∧
    (position_valid (object_position d') = false → d' = d).
Proof.
  induction fuel as [|fuel IH]; intros index d d'; simpl;
    destruct (index <? 0); try (by intros [= <-]); try done.
  destruct (contours !! Z.to_nat index) as [m|]; [|done].
  destruct (hierarchy !! Z.to_nat index) as [hv|]; [|done].
  intros Hrun. destruct (IH _ _ _ Hrun) as (Hlo & Hhi & Hstale).
  destruct (consider_keeps m d) as (Clo & Chi & Cstale).
  split; [congruence|]. split; [congruence|].
  intros Hinv. rewrite (Hstale Hinv) in Hinv |- *. by apply Cstale.
Qed.

(** X13: a sift that finds no object leaves stale coordinates behind.
    [siftBlobs] never changes the area bounds; and when the position it
    leaves is not valid, its coordinates are the ones the detector held
    before the call, whether they were valid then or not, and
    [object_area] is 0.  This is about [siftBlobs] alone, not about what
    the tuning window does between two of its calls. *)
Theorem siftBlobs_invalid_keeps_old_coordinates
    (fuel : nat) (contours : list (Moments R)) (hierarchy : list Vec4i)
    (d d' : HSVDetector R) :
  siftBlobs zero ltb div fuel contours hierarchy d = Some d' →
  min_object_area d' = min_object_area d ∧
  max_object_area d' = max_object_area d ∧
  (position_valid (object_position d') = false →
   position (object_position d') = position (object_position d) ∧
   object_area d' = zero).
Proof.
  unfold siftBlobs.
  set (d0 := {| min_object_area := min_object_area d;
                max_object_area := max_object_area d;
                object_area := zero;
                object_position :=
                  {| position_valid := false;
                     position := position (object_position d) |} |}).
  destruct (0 <? length hierarchy)%nat.
  - intros E.
    destruct (sift_loop_keeps _ _ _ _ _ _ E) as (Hlo & Hhi & Hstale).
    split; [done|]. split; [done|]. intros Hinv. by rewrite (Hstale Hinv).
  - by intros [= <-].
Qed.

End Stale.

Lemma siftBlobs_invalid_keeps_old_coordinates_witness :
  siftBlobs 0 Z.ltb Z.div 2 ring_contours ring_hierarchy detector_seen_7_9
    = Some {| min_object_area := 100; max_object_area := 500;
              object_area := 0;
              object_position :=
                {| position_valid := false;
                   position := {| x := 7; y := 9 |} |} |} ∧
  ∃ d',
    siftBlobs 0 Z.ltb Z.div 2 ring_contours ring_hierarchy detector_seen_7_9
      = Some d' ∧
    min_object_area d' = 100 ∧ max_object_area d' = 500 ∧
    position (object_position d') = {| x := 7; y := 9 |} ∧
    object_area d' = 0.
Proof.
  split; [reflexivity|].
  eexists. split; [reflexivity|].
  destruct (siftBlobs_invalid_keeps_old_coordinates Z 0 Z.ltb Z.div
              2%nat ring_contours ring_hierarchy detector_seen_7_9 _ eq_refl)
    as (Hlo & Hhi & Hstale).
  destruct (Hstale eq_refl) as [Hpos Harea].
  split; [exact Hlo|]. split; [exact Hhi|]. split; [exact Hpos|exact Harea].
Defined.

(** ** Erosion and dilation *)

Lemma morph_ok_slider c m : morph_ok m → morph_ok (slider_changed c m).
Proof.
  intros [He Hd]. destruct c as [v|v]; simpl;
    unfold set_erode_size, set_dilate_size;
    destruct (Z.ltb_spec 0 v); split; simpl; try done; auto.
Qed.

Lemma morph_ok_construct m : morph_ok (construct_morph m).
Proof. split; simpl; [done|]. intros _. split; [lia|done]. Qed.

(** X14: erosion and dilation never run with an empty element.  Whatever
    was in the settings before the constructor ran and however the size
    sliders are moved afterwards, an operation is on only with an element
    of positive side equal to its size.  A positive size switches the
    operation on and builds the element of that side; a size of 0 or less
    switches the operation off and keeps the size and the element it had.
    Neither setter touches the other operation.  A detector fresh from the
    constructor only dilates, with side 10. *)
Theorem erodeDilate_elements_are_positive
    (garbage : Morph) (moves : list slider) :
  morph_ok (after_sliders moves (construct_morph garbage)) ∧
  (∀ value m, erode_on (set_erode_size value m) = (0 <? value)) ∧
  (∀ value m, dilate_on (set_dilate_size value m) = (0 <? value)) ∧
  (∀ value m,
     erode_px (set_erode_size value m)
       = (if 0 <? value then value else erode_px m) ∧
     erode_element (set_erode_size value m)
       = (if 0 <? value then value else erode_element m)) ∧
  (∀ value m,
     dilate_px (set_dilate_size value m)
       = (if 0 <? value then value else dilate_px m) ∧
     dilate_element (set_dilate_size value m)
       = (if 0 <? value then value else dilate_element m)) ∧
  (∀ value m,
     dilate_on (set_erode_size value m) = dilate_on m ∧
     dilate_px (set_erode_size value m) = dilate_px m ∧
     dilate_element (set_erode_size value m) = dilate_element m) ∧
  (∀ value m,
     erode_on (set_dilate_size value m) = erode_on m ∧
     erode_px (set_dilate_size value m) = erode_px m ∧
     erode_element (set_dilate_size value m) = erode_element m) ∧
  (∀ Image (erode dilate : Z → Image → Image) (img : Image),
     erodeDilate erode dilate (construct_morph garbage) img = dilate 10 img).
Proof.
  split.
  { unfold after_sliders.
    generalize (morph_ok_construct garbage).
    generalize (construct_morph garbage).
    induction moves as [|c moves IH]; intros m Hm; [done|].
    simpl. by apply IH, morph_ok_slider. }
  repeat match goal with |- _ ∧ _ => split end;
    try (intros value m; unfold set_erode_size, set_dilate_size;
         by destruct (0 <? value)).
  done.
Qed.

End HSVFacts.

(** * Properties of the recorder's sample loop *)

Module RecFacts.
Import Rec.

Lemma read_frames_record_on frames r :
  record_on_ (fst (read_frames frames r)) = record_on_ r.
Proof.
  revert r. induction frames as [|c frames IH]; intros r; simpl; [done|].
  destruct (record_on_ r && negb (frame_push c)); [done|]. by rewrite IH.
Qed.

(** The flag only goes up in the first loop, also when it throws. *)
Lemma read_frames_latch frames r :
  source_eof_ r = true → source_eof_ (fst (read_frames frames r)) = true.
Proof.
  revert r. induction frames as [|c frames IH]; intros r Hr; simpl; [done|].
  destruct (record_on_ r && negb (frame_push c)); simpl.
  - by rewrite Hr.
  - apply IH. simpl. by rewrite Hr.
Qed.

Lemma read_frames_no_overrun frames r :
  no_overrun frames r = true →
  snd (read_frames frames r) = None ∧
  source_eof_ (fst (read_frames frames r))
    = source_eof_ r || frames_END frames.
Proof.
  unfold no_overrun. revert r.
  induction frames as [|c frames IH]; intros r Hno; simpl in *.
  - by rewrite orb_false_r.
  - assert (Hc : record_on_ r && negb (frame_push c) = false).
    { destruct (record_on_ r), (frame_push c); simpl in *; done. }
    rewrite Hc.
    destruct (IH (set_source_eof
                    (source_eof_ r || bool_decide (frame_wait c = END)) r))
      as [Hnone Heof].
    { simpl. destruct (record_on_ r), (frame_push c); simpl in *; done. }
    split; [done|]. rewrite Heof. simpl. by rewrite orb_assoc.
Qed.

Lemma read_positions_spec positions :
  ∀ i r,
    source_eof_ (read_positions i positions r)
      = source_eof_ r || positions_END positions ∧
    record_on_ (read_positions i positions r) = record_on_ r.
Proof.
  induction positions as [|c positions IH]; intros i r; simpl.
  - by rewrite orb_false_r.
  - destruct (IH (S i)
      {| source_eof_ := source_eof_ r || bool_decide (position_wait c = END);
         record_on_ := record_on_ r;
         position_write_number_ :=
           <[i := position_number c]> (position_write_number_ r);
         positions_ := <[i := position_clone c]> (positions_ r);
         position_fp_ := position_fp_ r;
         position_file := position_file r |}) as [-> ->].
    simpl. by rewrite orb_assoc.
Qed.

Lemma writePositionsToFile_source_eof r :
  source_eof_ (writePositionsToFile r) = source_eof_ r.
Proof. unfold writePositionsToFile. by destruct (position_fp_ r). Qed.

(** A call ends in one of two ways: it returns the flag, or it throws the
    overrun error.  The flag never goes down. *)
Lemma writeStreams_latch frames positions r :
  (snd (writeStreams frames positions r)
     = Returns (source_eof_ (fst (writeStreams frames positions r))) ∨
   snd (writeStreams frames positions r) = Throws frame_buffer_overrun) ∧
  (source_eof_ r = true →
   source_eof_ (fst (writeStreams frames positions r)) = true).
Proof.
  unfold writeStreams.
  pose proof (read_frames_latch frames r) as Hlatch.
  destruct (read_frames frames r) as [r1 [[]|]]; simpl in *.
  - split; [by right | done].
  - split; [by left|]. intros Hr.
    destruct (read_positions_spec positions 0%nat r1) as [Heof _].
    destruct (record_on_ _);
      rewrite ?writePositionsToFile_source_eof, Heof, (Hlatch Hr); done.
Qed.

(** Once the flag is up, every later call that returns, returns true. *)
Lemma run_calls_latched calls :
  ∀ r, source_eof_ r = true →
    source_eof_ (fst (run_calls calls r)) = true ∧
    Forall (λ out, out = Returns true ∨ out = Throws frame_buffer_overrun)
      (snd (run_calls calls r)).
Proof.
  induction calls as [|[fs ps] calls IH]; intros r Hr; simpl; [done|].
  destruct (writeStreams_latch fs ps r) as [Hout Hlatch].
  destruct (writeStreams fs ps r) as [r1 out]; simpl in *.
  destruct (IH r1 (Hlatch Hr)) as [Heof Houts].
  destruct (run_calls calls r1) as [r2 outs]; simpl in *.
  split; [done|]. constructor; [|done].
  rewrite (Hlatch Hr) in Hout. done.
Qed.

(** Without an overrun a call gets to every frame source. *)
Lemma frames_reached_no_overrun frames r :
  no_overrun frames r = true →
  frames_reached frames (record_on_ r) = frames.
Proof.
  unfold no_overrun. induction frames as [|c frames IH]; intros Hno; [done|].
  simpl in *. destruct (record_on_ r), (frame_push c); simpl in *;
    try done; by rewrite IH.
Qed.

Lemma END_returned_no_overrun frames positions r :
  no_overrun frames r = true →
  END_returned frames positions r
    = frames_END frames || positions_END positions.
Proof.
  intros Hno. unfold END_returned.
  by rewrite (frames_reached_no_overrun frames r Hno), Hno.
Qed.

(** The first loop in full: the flag goes up with every END of a frame
    source the loop gets to, also in the cycle that throws, and the loop
    throws exactly when there is an overrun. *)
Lemma read_frames_reached frames :
  ∀ r,
    source_eof_ (fst (read_frames frames r))
      = source_eof_ r || frames_END (frames_reached frames (record_on_ r)) ∧
    snd (read_frames frames r)
      = (if no_overrun frames r then None else Some frame_buffer_overrun).
Proof.
  unfold no_overrun.
  induction frames as [|c frames IH]; intros r; simpl.
  - rewrite orb_false_r, orb_true_r. done.
  - destruct (IH (set_source_eof
                    (source_eof_ r || bool_decide (frame_wait c = END)) r))
      as [IHeof IHout]. simpl in IHeof, IHout.
    destruct (record_on_ r) eqn:Hrec, (frame_push c) eqn:Hpush; simpl in *.
    + rewrite IHeof, IHout. by rewrite orb_assoc.
    + by rewrite orb_false_r.
    + rewrite IHeof, IHout. by rewrite orb_assoc.
    + rewrite IHeof, IHout. by rewrite orb_assoc.
Qed.

(** C10, as the code has it: end-of-stream is latched in [source_eof_].
    When a [wait()] of a call returns END, the flag is set when the call
    ends, whether it returns or throws: the call returns true unless a
    frame-buffer overrun makes it throw.  From then on the flag stays set
    and every later call returns true, whatever the sources report, unless
    it throws the overrun error. *)
Theorem writeStreams_end_of_stream_is_latched
    (frames : list FrameCycle) (positions : list PositionCycle)
    (r : Recorder) (later : list (list FrameCycle * list PositionCycle)) :
  END_returned frames positions r = true →
  ∃ r',
    writeStreams frames positions r
      = (r', if no_overrun frames r then Returns true
             else Throws frame_buffer_overrun) ∧
    source_eof_ r' = true ∧
    source_eof_ (fst (run_calls later r')) = true ∧
    Forall (λ out, out = Returns true ∨ out = Throws frame_buffer_overrun)
      (snd (run_calls later r')).
Proof.
  unfold END_returned. intros HEND.
  destruct (read_frames_reached frames r) as [Heof1 Hout1].
  assert (Hcall : ∃ r',
    writeStreams frames positions r
      = (r', if no_overrun frames r then Returns true
             else Throws frame_buffer_overrun) ∧
    source_eof_ r' = true).
  { unfold writeStreams. destruct (read_frames frames r) as [r1 o].
    simpl in Heof1, Hout1. subst o.
    destruct (no_overrun frames r).
    - destruct (read_positions_spec positions 0%nat r1) as [Heof2 _].
      assert (Heof : source_eof_ (read_positions 0 positions r1) = true).
      { rewrite Heof2, Heof1, <- orb_assoc. simpl in HEND. rewrite HEND.
        apply orb_true_r. }
      cbv zeta.
      destruct (record_on_ (read_positions 0 positions r1)).
      + exists (writePositionsToFile (read_positions 0 positions r1)).
        by rewrite writePositionsToFile_source_eof, Heof.
      + exists (read_positions 0 positions r1). by rewrite Heof.
    - exists r1. split; [done|]. rewrite Heof1.
      rewrite orb_false_r in HEND. rewrite HEND. apply orb_true_r. }
  destruct Hcall as (r' & Hcall & Heof). exists r'.
  split; [done|]. split; [done|]. by apply run_calls_latched.
Qed.

Lemma writeStreams_end_of_stream_is_latched_witness :
  (∃ r',
     writeStreams [ {| frame_wait := END; frame_push := true |} ] []
       recording = (r', Returns true) ∧
     snd (run_calls
            [ ([ {| frame_wait := ACTIVE; frame_push := true |} ], []) ] r')
       = [Returns true]) ∧
  (∃ r',
     writeStreams last_frame_overrun [] recording
       = (r', Throws frame_buffer_overrun) ∧
     source_eof_ r' = true ∧
     snd (run_calls
            [ ([ {| frame_wait := ACTIVE; frame_push := true |} ], []) ] r')
       = [Returns true]).
Proof.
  split.
  - destruct (writeStreams_end_of_stream_is_latched
                [ {| frame_wait := END; frame_push := true |} ] [] recording
                [ ([ {| frame_wait := ACTIVE; frame_push := true |} ], []) ])
      as (r' & Hcall & Heof & _ & _); [reflexivity|].
    exists r'. split; [exact Hcall|].
    injection Hcall as <-. reflexivity.
  - destruct (writeStreams_end_of_stream_is_latched
                last_frame_overrun [] recording
                [ ([ {| frame_wait := ACTIVE; frame_push := true |} ], []) ])
      as (r' & Hcall & Heof & _ & _); [reflexivity|].
    exists r'. split; [exact Hcall|]. split; [exact Heof|].
    injection Hcall as <-. reflexivity.
Defined.

(** A frame source reports END and, in the same cycle, its frame queue is
    full: the call throws instead of returning true. *)
Lemma writeStreams_END_then_overrun_throws :
  frames_END last_frame_overrun = true ∧
  snd (writeStreams last_frame_overrun [] recording)
    = Throws frame_buffer_overrun ∧
  snd (writeStreams last_frame_overrun [] recording) ≠ Returns true ∧
  source_eof_ (fst (writeStreams last_frame_overrun [] recording)) = true.
Proof. split; [|split; [|split]]; try reflexivity. discriminate. Qed.

(** ** What a call stores and writes *)

Lemma read_frames_keeps frames :
  ∀ r,
    record_on_ (fst (read_frames frames r)) = record_on_ r ∧
    position_fp_ (fst (read_frames frames r)) = position_fp_ r ∧
    position_file (fst (read_frames frames r)) = position_file r ∧
    positions_ (fst (read_frames frames r)) = positions_ r ∧
    position_write_number_ (fst (read_frames frames r))
      = position_write_number_ r.
Proof.
  induction frames as [|c frames IH]; intros r; simpl; [done|].
  destruct (record_on_ r && negb (frame_push c)); [done|].
  by destruct (IH (set_source_eof
                     (source_eof_ r || bool_decide (frame_wait c = END)) r))
    as (-> & -> & -> & -> & ->).
Qed.

Lemma read_positions_keeps positions :
  ∀ i r,
    position_fp_ (read_positions i positions r) = position_fp_ r ∧
    position_file (read_positions i positions r) = position_file r.
Proof.
  induction positions as [|c positions IH]; intros i r; simpl; [done|].
  by destruct (IH (S i)
      {| source_eof_ := source_eof_ r || bool_decide (position_wait c = END);
         record_on_ := record_on_ r;
         position_write_number_ :=
           <[i := position_number c]> (position_write_number_ r);
         positions_ := <[i := position_clone c]> (positions_ r);
         position_fp_ := position_fp_ r;
         position_file := position_file r |}) as [-> ->].
Qed.

(** Writing a run of values into a vector from index [i] on. *)
Lemma insert_run {A : Type} (xs : list A) :
  ∀ (i : nat) (l : list A),
    (i + length xs ≤ length l)%nat →
    foldl (λ l ix, <[fst ix := snd ix]> l) l
      (zip (seq i (length xs)) xs)
    = take i l ++ xs ++ drop (i + length xs) l.
Proof.
  induction xs as [|x xs IH]; intros i l Hlen; simpl in *.
  - by rewrite Nat.add_0_r, take_drop.
  - rewrite IH by (rewrite length_insert; lia).
    rewrite (take_S_r _ i x) by (apply list_lookup_insert_eq; lia).
    rewrite take_insert_ge by lia.
    rewrite drop_insert_lt by lia.
    rewrite <- app_assoc. simpl. by rewrite Nat.add_succ_r.
Qed.

Lemma read_positions_stores positions :
  ∀ i r,
    positions_ (read_positions i positions r)
      = foldl (λ l ix, <[fst ix := snd ix]> l) (positions_ r)
          (zip (seq i (length positions)) (position_clone <$> positions)) ∧
    position_write_number_ (read_positions i positions r)
      = foldl (λ l ix, <[fst ix := snd ix]> l) (position_write_number_ r)
          (zip (seq i (length positions)) (position_number <$> positions)).
Proof.
  induction positions as [|c positions IH]; intros i r; simpl; [done|].
  by destruct (IH (S i)
      {| source_eof_ := source_eof_ r || bool_decide (position_wait c = END);
         record_on_ := record_on_ r;
         position_write_number_ :=
           <[i := position_number c]> (position_write_number_ r);
         positions_ := <[i := position_clone c]> (positions_ r);
         position_fp_ := position_fp_ r;
         position_file := position_file r |}) as [-> ->].
Qed.

(** X15: a recorder that is not recording cannot overrun.  With
    [record_on_] off, [writeStreams] never throws: it goes through every
    source, returns whether the stream has ended, and writes nothing to the
    position file. *)
Theorem writeStreams_not_recording_never_throws
    (frames : list FrameCycle) (positions : list PositionCycle)
    (r : Recorder) :
  record_on_ r = false →
  ∃ r',
    writeStreams frames positions r
      = (r', Returns (source_eof_ r || frames_END frames
                      || positions_END positions)) ∧
    record_on_ r' = false ∧
    position_file r' = position_file r.
Proof.
  intros Hoff.
  destruct (read_frames_no_overrun frames r) as [Hnone Heof].
  { unfold no_overrun. by rewrite Hoff. }
  destruct (read_frames_keeps frames r) as (Hrec & _ & Hfile & _).
  unfold writeStreams.
  destruct (read_frames frames r) as [r1 o]. simpl in *. subst o.
  destruct (read_positions_spec positions 0%nat r1) as [Heof2 Hrec2].
  destruct (read_positions_keeps positions 0%nat r1) as [_ Hfile2].
  rewrite Hrec2, Hrec, Hoff.
  eexists. split; [by rewrite Heof2, Heof|]. by rewrite Hrec2, Hrec, Hfile2.
Qed.

Lemma writeStreams_not_recording_never_throws_witness :
  ∃ r',
    writeStreams last_frame_overrun []
      {| source_eof_ := false; record_on_ := false;
         position_write_number_ := []; positions_ := [];
         position_fp_ := true; position_file := [] |}
    = (r', Returns true) ∧ position_file r' = [].
Proof.
  destruct (writeStreams_not_recording_never_throws last_frame_overrun []
              {| source_eof_ := false; record_on_ := false;
                 position_write_number_ := []; positions_ := [];
                 position_fp_ := true; position_file := [] |} eq_refl)
    as (r' & Hcall & _ & Hfile).
  by exists r'.
Defined.

(** X16: a call that returns has stored this cycle's positions and nothing
    older.  With one entry per position source in [positions_] and
    [position_write_number_], and no frame-buffer overrun, [writeStreams]
    leaves in them exactly the clones and write numbers of this cycle, in
    the order of the sources, and adds one record with these positions to
    the position file if it is recording with the file open, and none
    otherwise. *)
Theorem writeStreams_stores_this_cycle
    (frames : list FrameCycle) (positions : list PositionCycle)
    (r : Recorder) :
  no_overrun frames r = true →
  length (positions_ r) = length positions →
  length (position_write_number_ r) = length positions →
  ∃ r',
    writeStreams frames positions r = (r', Returns (source_eof_ r')) ∧
    positions_ r' = position_clone <$> positions ∧
    position_write_number_ r' = position_number <$> positions ∧
    position_file r'
      = (if record_on_ r && position_fp_ r
         then position_file r ++ [position_clone <$> positions]
         else position_file r).
Proof.
  intros Hno Hlp Hln.
  destruct (read_frames_no_overrun frames r Hno) as [Hnone _].
  destruct (read_frames_keeps frames r) as (Hrec & Hfp & Hfile & Hpos & Hnum).
  unfold writeStreams.
  destruct (read_frames frames r) as [r1 o]. simpl in *. subst o.
  destruct (read_positions_spec positions 0%nat r1) as [_ Hrec2].
  destruct (read_positions_keeps positions 0%nat r1) as [Hfp2 Hfile2].
  destruct (read_positions_stores positions 0%nat r1) as [Hst Hsn].
  assert (Hclones : positions_ (read_positions 0 positions r1)
                    = position_clone <$> positions).
  { rewrite Hst, Hpos.
    rewrite <- (length_fmap position_clone positions).
    rewrite insert_run by (rewrite length_fmap; lia).
    rewrite drop_ge by (rewrite length_fmap; simpl; lia).
    by rewrite app_nil_r. }
  assert (Hnumbers : position_write_number_ (read_positions 0 positions r1)
                     = position_number <$> positions).
  { rewrite Hsn, Hnum.
    rewrite <- (length_fmap position_number positions).
    rewrite insert_run by (rewrite length_fmap; lia).
    rewrite drop_ge by (rewrite length_fmap; simpl; lia).
    by rewrite app_nil_r. }
  eexists. split; [done|].
  rewrite Hrec2, Hrec. unfold writePositionsToFile. rewrite Hfp2, Hfp.
  destruct (record_on_ r), (position_fp_ r); simpl;
    rewrite ?Hclones, ?Hnumbers, ?Hfile2, ?Hfile; done.
Qed.

Lemma writeStreams_stores_this_cycle_witness :
  ∃ r',
    writeStreams []
      [ {| position_wait := ACTIVE; position_number := 8;
           position_clone := 31 |};
        {| position_wait := ACTIVE; position_number := 8;
           position_clone := 42 |} ]
      {| source_eof_ := false; record_on_ := true;
         position_write_number_ := [7; 7]; positions_ := [30; 40];
         position_fp_ := true; position_file := [[30; 40]] |}
    = (r', Returns false) ∧
    positions_ r' = [31; 42] ∧
    position_file r' = [[30; 40]; [31; 42]].
Proof.
  destruct (writeStreams_stores_this_cycle []
      [ {| position_wait := ACTIVE; position_number := 8;
           position_clone := 31 |};
        {| position_wait := ACTIVE; position_number := 8;
           position_clone := 42 |} ]
      {| source_eof_ := false; record_on_ := true;
         position_write_number_ := [7; 7]; positions_ := [30; 40];
         position_fp_ := true; position_file := [[30; 40]] |})
    as (r' & Hcall & Hpos & _ & Hfile); [reflexivity..|].
  exists r'. split; [|by split].
  rewrite Hcall. injection Hcall as <-. reflexivity.
Defined.

(** ** The sample period check *)

Section PeriodFacts.

Variable R : Type.
Variable eqb : R → R → bool.
Variable ltb : R → R → bool.
Variable minus_one : R.

(** [==] tells whether two periods are the same number. *)
Hypothesis eqb_eq : ∀ a b, eqb a b = true ↔ a = b.

Lemma eqb_refl a : eqb a a = true.
Proof. by apply eqb_eq. Qed.

Lemma eqb_neq a b : a ≠ b → eqb a b = false.
Proof.
  intros Hne. destruct (eqb a b) eqn:E; [|done]. by apply eqb_eq in E.
Qed.

Lemma check_period_after_first (c : period_check R) (p period : R) :
  ts_last c = p → p ≠ minus_one →
  check_period eqb ltb minus_one c period
    = {| ts := settled eqb ltb p period; ts_last := p;
         ts_consistent := ts_consistent c && eqb period p |}.
Proof.
  intros Hl Hp. unfold check_period, settled. rewrite Hl, (eqb_neq _ _ Hp).
  simpl. destruct (eqb period p) eqn:E; simpl.
  - apply eqb_eq in E as ->. by rewrite andb_true_r.
  - by rewrite andb_false_r.
Qed.

Lemma foldl_check_period (p : R) (periods : list R) :
  p ≠ minus_one →
  ∀ c, ts_last c = p →
    foldl (check_period eqb ltb minus_one) c periods
      = {| ts := from_option (settled eqb ltb p) (ts c) (last periods);
           ts_last := p;
           ts_consistent :=
             ts_consistent c && forallb (λ x, eqb x p) periods |}.
Proof.
  intros Hp. induction periods as [|x periods IH]; intros c Hl.
  - simpl. rewrite andb_true_r. destruct c; simpl in *. by subst.
  - simpl foldl. rewrite (check_period_after_first c p x Hl Hp).
    rewrite IH by done. simpl. rewrite last_cons, andb_assoc.
    by destruct (last periods).
Qed.

(** X17: the sample period the recorder settles on is decided by its first
    and its last source.  With at least one source, the first of period [p]
    (not -1), [connectToNodes] finds the periods consistent exactly when
    every source has period [p]; the period it keeps is [p] if the last
    source has it, and else the larger of [p] and the last source's period,
    whatever the periods of the sources in between. *)
Theorem sample_period_decided_by_first_and_last
    (frame_periods position_periods : list R) (p : R) (rest : list R) :
  frame_periods ++ position_periods = p :: rest →
  p ≠ minus_one →
  check_periods eqb ltb minus_one frame_periods position_periods
    = {| ts := settled eqb ltb p (default p (last rest));
         ts_last := p;
         ts_consistent := forallb (λ x, eqb x p) rest |}.
Proof.
  intros Hall Hp. unfold check_periods. rewrite <- foldl_app, Hall.
  simpl foldl.
  assert (Hfirst : check_period eqb ltb minus_one (period_check_start minus_one) p
                   = {| ts := p; ts_last := p; ts_consistent := true |}).
  { unfold check_period. simpl. by rewrite eqb_refl. }
  rewrite Hfirst, (foldl_check_period p rest Hp) by done. simpl.
  destruct (last rest) as [l|]; simpl; [done|].
  unfold settled. by rewrite eqb_refl.
Qed.

End PeriodFacts.

Lemma sample_period_decided_by_first_and_last_witness :
  check_periods Z.eqb Z.ltb (-1) [10; 50] [20]
    = {| ts := 20; ts_last := 10; ts_consistent := false |}.
Proof.
  apply (sample_period_decided_by_first_and_last Z Z.eqb Z.ltb (-1)
           Z.eqb_eq [10; 50] [20] 10 [50; 20]).
  - reflexivity.
  - discriminate.
Defined.

End RecFacts.
